(** * Lab4/qr.py: finder-pattern corner detection for QR symbols

    A shallow embedding of [src/Lab4/qr.py] and the properties of its
    run-length scanner, pattern verifier, spatial de-duplicator, alignment
    estimator, binarizer and decode guard.

    Conventions of the embedding.
    - Python [int]s are [Z]; run counters, row and column indices and the
      coordinates of a location are all Python ints in the source.
    - Python [float]s are IEEE binary64 numbers, the primitive floats of
      [PrimFloat]; [checkRatio_binary64] and [verifyRatio_binary64] are the
      two ratio tests of the source in that arithmetic, on every Python
      int.  The scanner and the walks apply these tests only to run
      lengths of the array; there the development uses [checkRatio] and
      [verifyRatio], the same tests in exact rational arithmetic, which
      the binary64 functions agree with on all runs up to 1024 pixels
      ([checkRatio_binary64_agrees], [verifyRatio_binary64_agrees]).
    - an exception is [None] (or [Raise] for [decode], which also logs its
      side effects as a list of events). *)

From Stdlib Require Import String ZArith QArith Qabs List Bool Lia Sorted.
From Stdlib Require Import Floats Uint63.
From Equations Require Import Equations.
Import ListNotations.

Local Open Scope Z_scope.

(* ===================================================================== *)
(** ** Numbers *)

(** [x < y] on floats, as a boolean. *)
Definition Qltb (x y : Q) : bool := negb (Qle_bool y x).

(** An [int] operand of a mixed int/float operation. *)
Definition of_int (z : Z) : Q := inject_Z z.

(* ===================================================================== *)
(** ** checkRatio (lines 58-76) *)

(** The keyword argument [debug] only prints and is left out.
    The default of the keyword argument [thresh = 2.0]: *)
Definition checkRatio_thresh : Q := 2%Q.

Definition checkRatio_total (c1 c2 c3 c4 c5 : Z) : Q :=
  (of_int (c1 + c2 + c3 + c4 + c5) / 7)%Q.

Definition checkRatio (c1 c2 c3 c4 c5 : Z) (thresh : Q) : bool :=
  let total := checkRatio_total c1 c2 c3 c4 c5 in
  (* Left edge check *)
  if Qltb total 1 then false
  else
    if Qltb (Qabs (of_int c1 - total)) thresh
       && Qltb (Qabs (of_int c2 - total)) thresh
       && Qltb (Qabs (of_int c3 - 3 * total)) thresh
       && Qltb (Qabs (of_int c4 - total)) thresh
       && Qltb (Qabs (of_int c5 - total)) thresh
    then true
    else false.

(* ===================================================================== *)
(** ** verifyRatio (lines 136-143) *)

(** The default of the keyword argument [thresh = 1.0]. *)
Definition verifyRatio_thresh : Q := 1%Q.

Definition verifyRatio_total (c1 c2 c3 : Z) : Q :=
  (of_int (c1 + c2 + c3) / (7 # 2))%Q.

Definition verifyRatio (c1 c2 c3 : Z) (thresh : Q) : bool :=
  let total := verifyRatio_total c1 c2 c3 in
  if Qltb (Qabs (of_int c1 - (3 # 2) * total)) thresh
     && Qltb (Qabs (of_int c2 - total)) thresh
     && Qltb (Qabs (of_int c3 - total)) thresh
  then true
  else false.

(* ===================================================================== *)
(** ** Binarized images *)

(** A location or candidate: the tuple [(i, j)], row first. *)
Definition point : Type := (Z * Z)%type.

(** A two-dimensional boolean numpy array: its [shape] and its cells, row by
    row.  Black = False, White = True. *)
Record image : Type := mkImage {
  rows : Z;
  cols : Z;
  pixels : list (list bool)
}.

(** The shape agrees with the cells. *)
Definition image_ok (im : image) : Prop :=
  rows im = Z.of_nat (length (pixels im)) /\
  Forall (fun r => cols im = Z.of_nat (length r)) (pixels im).

(** The array whose rows are [l] (its width is that of the first row). *)
Definition image_of (l : list (list bool)) : image :=
  {| rows := Z.of_nat (length l);
     cols := Z.of_nat (length (hd [] l));
     pixels := l |}.

(** [image[i,j]], read only under the guards [0 <= i < rows], [0 <= j < cols]. *)
Definition getitem (im : image) (i j : Z) : bool :=
  nth (Z.to_nat j) (nth (Z.to_nat i) (pixels im) []) false.

(** [range(n)] *)
Definition range (n : Z) : list Z := map Z.of_nat (seq 0 (Z.to_nat n)).

(* ===================================================================== *)
(** ** getCandidates (lines 78-134) *)

(** The five run counters and the colour of the previous pixel. *)
Record scan : Type := mkScan {
  counter1 : Z;
  counter2 : Z;
  counter3 : Z;
  counter4 : Z;
  counter5 : Z;
  prev : bool
}.

(** The state at the start of a row. *)
Definition scan_start : scan := mkScan 0 0 0 0 0 true.

Definition check_scan (s : scan) : bool :=
  checkRatio (counter1 s) (counter2 s) (counter3 s) (counter4 s) (counter5 s)
             checkRatio_thresh.

(** The column [j - counter5 - counter4 - counter3//2]. *)
Definition center_col (j : Z) (s : scan) : Z :=
  j - counter5 s - counter4 s - counter3 s / 2.

(** The two [candidates.append] of a passed check, for the column base [j]. *)
Definition emitted (i j : Z) (s : scan) : list point :=
  if check_scan s
  then [(i, center_col j s); (i, center_col j s + 1)]
  else [].

(** What one pixel does to the counters. *)
Definition scan_counters (white : bool) (s : scan) : scan :=
  if white then
    if prev s then
      mkScan (counter1 s) (counter2 s) (counter3 s) (counter4 s + 1)
             (counter5 s) true
    else
      mkScan (counter1 s) (counter4 s) (counter3 s) 1 (counter5 s) true
  else
    if prev s then
      mkScan (counter3 s) (counter2 s) (counter5 s) (counter4 s) 1 false
    else
      mkScan (counter1 s) (counter2 s) (counter3 s) (counter4 s)
             (counter5 s + 1) false.

(** What one pixel appends to [candidates]: the ratio check is made only at
    a white pixel that follows a black one. *)
Definition scan_emits (i j : Z) (white : bool) (s : scan) : list point :=
  if white then
    if prev s then [] else emitted i j s
  else [].

(** The body of [for j in range(cols)]. *)
Definition scan_pixel (im : image) (i : Z) (st : scan * list point) (j : Z)
  : scan * list point :=
  let white := getitem im i j in
  (scan_counters white (fst st), snd st ++ scan_emits i j white (fst st)).

(** The inner loop of row [i], from the start state. *)
Definition scan_columns (im : image) (i : Z) (candidates : list point)
  : scan * list point :=
  fold_left (scan_pixel im i) (range (cols im)) (scan_start, candidates).

(** The body of [for i in range(rows)]: the inner loop and the right edge
    check.  After the loop [j] is [cols - 1]; in an array without columns
    [j] is unbound, but there all counters are 0 and the check fails before
    [j] is read (lemma [right_edge_never_reads_unbound_j]). *)
Definition scan_row (im : image) (candidates : list point) (i : Z)
  : list point :=
  let st := scan_columns im i candidates in
  let j := cols im - 1 in
  snd st ++ emitted i (j + 1) (fst st).

Definition getCandidates (im : image) : list point :=
  fold_left (scan_row im) (range (rows im)) [].

(** *** The runs of a row

    The run lengths of a scanned prefix of a row, latest run first; the runs
    alternate in colour and the latest one has the colour of the last pixel
    (white before the first pixel).  A run that the row has not reached yet
    has length 0, as the counters start at 0. *)
Definition history : Type := (bool * list Z)%type.

Definition history_start : history := (true, []).

Definition run (k : nat) (h : history) : Z := nth k (snd h) 0.

(** A pixel of the colour of the latest run lengthens it; a pixel of the
    other colour opens a run of length 1. *)
Definition run_step (h : history) (white : bool) : history :=
  if Bool.eqb white (fst h) then
    (fst h, (run 0 h + 1) :: tl (snd h))
  else
    (white, 1 :: snd h).

(** The columns [0 .. n-1]. *)
Definition columns (n : nat) : list Z := map Z.of_nat (seq 0 n).

(** The history of the first [n] pixels of row [i]. *)
Definition row_history (im : image) (i : Z) (n : nat) : history :=
  fold_left (fun h j => run_step h (getitem im i j)) (columns n) history_start.

(** The inner loop after the first [n] pixels of row [i]. *)
Definition scan_prefix (im : image) (i : Z) (candidates : list point) (n : nat)
  : scan * list point :=
  fold_left (scan_pixel im i) (columns n) (scan_start, candidates).

(** The counters that a history stands for.  In a black run the counters
    1..5 are the last five runs, oldest first (black, white, black, white,
    black); in a white run counter 4 is that run, counter 5 and counter 3
    the two black runs before it, counter 2 the white run between them and
    counter 1 the black run two runs before counter 3. *)
Definition counters_of (h : history) : scan :=
  if fst h then
    mkScan (run 5 h) (run 2 h) (run 3 h) (run 0 h) (run 1 h) true
  else
    mkScan (run 4 h) (run 3 h) (run 2 h) (run 1 h) (run 0 h) false.

(* ===================================================================== *)
(** ** verifyDirection and verifyCenter (lines 145-188) *)

Definition in_bounds (im : image) (i j : Z) : bool :=
  (0 <=? i) && (i <? rows im) && (0 <=? j) && (j <? cols im).

(** The [while] loop; [fuel] bounds the number of iterations and [None] is
    "still running".  [prev] is the three-valued state 0, 1, 2. *)
Fixpoint verifyDirection_loop (fuel : nat) (im : image) (dx dy : Z)
    (prev counter1 counter2 counter3 i j : Z) : option bool :=
  match fuel with
  | O => None
  | S fuel' =>
    if in_bounds im i j then
      if getitem im i j then
        (* We are at a white pixel *)
        if prev <? 2 then
          verifyDirection_loop fuel' im dx dy 1 counter1 (counter2 + 1)
                               counter3 (i + dy) (j + dx)
        else
          Some (verifyRatio counter1 counter2 counter3 verifyRatio_thresh)
      else
        (* We are at a black pixel *)
        if prev =? 0 then
          verifyDirection_loop fuel' im dx dy prev (counter1 + 1) counter2
                               counter3 (i + dy) (j + dx)
        else
          verifyDirection_loop fuel' im dx dy 2 counter1 counter2
                               (counter3 + 1) (i + dy) (j + dx)
    else
      (* Edge Check *)
      Some (verifyRatio counter1 counter2 counter3 verifyRatio_thresh)
  end.

(** The same walk, returning the three run lengths handed to [verifyRatio]. *)
Fixpoint walk_runs (fuel : nat) (im : image) (dx dy : Z)
    (prev counter1 counter2 counter3 i j : Z) : option (Z * Z * Z) :=
  match fuel with
  | O => None
  | S fuel' =>
    if in_bounds im i j then
      if getitem im i j then
        if prev <? 2 then
          walk_runs fuel' im dx dy 1 counter1 (counter2 + 1) counter3
                    (i + dy) (j + dx)
        else Some (counter1, counter2, counter3)
      else
        if prev =? 0 then
          walk_runs fuel' im dx dy prev (counter1 + 1) counter2 counter3
                    (i + dy) (j + dx)
        else
          walk_runs fuel' im dx dy 2 counter1 counter2 (counter3 + 1)
                    (i + dy) (j + dx)
    else Some (counter1, counter2, counter3)
  end.

(** Iterations that any walk with a non-zero step can make inside the
    array, plus the one that leaves it. *)
Definition walk_fuel (im : image) : nat :=
  S (Z.to_nat (rows im) + Z.to_nat (cols im)).

Definition verifyDirection (im : image) (loc : point) (dx dy : Z)
  : option bool :=
  verifyDirection_loop (walk_fuel im) im dx dy 0 0 0 0 (fst loc) (snd loc).

Definition direction_runs (im : image) (loc : point) (dx dy : Z)
  : option (Z * Z * Z) :=
  walk_runs (walk_fuel im) im dx dy 0 0 0 0 (fst loc) (snd loc).

(** [verifyRatio] with its default threshold on the three runs of a walk. *)
Definition accepts (runs : Z * Z * Z) : bool :=
  let '(c1, c2, c3) := runs in verifyRatio c1 c2 c3 verifyRatio_thresh.

Definition verifyCenter (im : image) (loc : point) : option bool :=
  match verifyDirection im loc 0 (-1) with
  | None => None
  | Some check_up =>
    match verifyDirection im loc 0 1 with
    | None => None
    | Some check_down =>
      match verifyDirection im loc 1 1 with
      | None => None
      | Some check_diag => Some (check_up && check_down && check_diag)
      end
    end
  end.

(* ===================================================================== *)
(** ** neighborSuppression (lines 190-210) *)

(** [(c1[0] - c2[0])**2 + (c1[1]-c2[1]) ** 2] *)
Definition sqdist (c1 c2 : point) : Z :=
  (fst c1 - fst c2) ^ 2 + (snd c1 - snd c2) ^ 2.

(** The test of line 200. *)
Definition near (thresh : Q) (c1 c2 : point) : bool :=
  Qltb (of_int (sqdist c1 c2)) thresh.

(** [centers[k]] for an index the loops keep in range. *)
Definition center_at (centers : list point) (k : nat) : point :=
  nth k centers (0, 0).

(** The indices collected by [for j in range(i+1,len(centers))]. *)
Definition removal_list (thresh : Q) (centers : list point) (i : nat)
  : list nat :=
  filter (fun j => near thresh (center_at centers i) (center_at centers j))
         (seq (S i) (length centers - S i)).

(** [del centers[j]] *)
Definition del_at {A : Type} (l : list A) (j : nat) : list A :=
  firstn j l ++ skipn (S j) l.

(** One pass of the outer loop body: collect, reverse, delete. *)
Definition suppress_from (thresh : Q) (centers : list point) (i : nat)
  : list point :=
  fold_left del_at (rev (removal_list thresh centers i)) centers.

(** The [while i < len(centers)] loop on the mutated list. *)
Fixpoint neighborSuppression_loop (fuel : nat) (thresh : Q) (i : nat)
    (centers : list point) : option (list point) :=
  match fuel with
  | O => None
  | S fuel' =>
    if (i <? length centers)%nat then
      neighborSuppression_loop fuel' thresh (S i) (suppress_from thresh centers i)
    else Some centers
  end.

Definition neighborSuppression (centers : list point) (thresh : Q)
  : option (list point) :=
  neighborSuppression_loop (S (length centers)) thresh 0 centers.

(** The default of the keyword argument [thresh = 10.0]. *)
Definition neighborSuppression_thresh : Q := 10%Q.

(** Forward suppression as a recursion on the list, for any test: the head
    survives, the later points the test relates to it are dropped, and the
    scan goes on from the next survivor. *)
Equations? suppress_by (test : point -> point -> bool) (l : list point)
  : list point by wf (length l) lt :=
  suppress_by test [] := [];
  suppress_by test (c :: rest) :=
    c :: suppress_by test (filter (fun c2 => negb (test c c2)) rest).
Proof.
  simpl. apply Nat.lt_succ_r, filter_length_le.
Qed.

(** Forward suppression with the test of line 200. *)
Definition suppress (thresh : Q) (l : list point) : list point :=
  suppress_by (near thresh) l.

(** The test as the specification words it: the squared row difference plus
    the raw column difference. *)
Definition near_raw (thresh : Q) (c1 c2 : point) : bool :=
  Qltb (of_int ((fst c1 - fst c2) ^ 2 + (snd c1 - snd c2))) thresh.

(* ===================================================================== *)
(** ** getAlignmentPoint (lines 212-224) *)

(** [centers[k]] for a constant index: [None] is the IndexError. *)
Definition index (centers : list point) (k : nat) : option point :=
  nth_error centers k.

Definition getAlignmentPoint (centers : list point) : option point :=
  match index centers 0 with
  | None => None
  | Some top_left =>
    match index centers 1 with
    | None => None
    | Some top_right =>
      match index centers 2 with
      | None => None
      | Some bottom_left =>
        let v1 := (fst top_right - fst top_left, snd top_right - snd top_left) in
        let v2 := (fst bottom_left - fst top_left, snd bottom_left - snd top_left) in
        let x := snd top_left + snd v1 + snd v2 in
        let y := fst top_left + fst v1 + fst v2 in
        Some (y, x)
      end
    end
  end.

(* ===================================================================== *)
(** ** The binarizer and getCornerPoints (lines 25-54) *)

(** The cells of a 2-D array, or of a 3-D one (row, column, channel). *)
Inductive grid (A : Type) : Type :=
| Grid2 (cells : list (list A))
| Grid3 (cells : list (list (list A))).
Arguments Grid2 {A} cells.
Arguments Grid3 {A} cells.

(** A numpy array as [getCornerPoints] and [decode] receive it: of dtype
    bool, or of a numeric dtype. *)
Inductive ndarray : Type :=
| BoolArray (g : grid bool)
| NumArray (g : grid Q).

Definition grid_map {A B : Type} (f : A -> B) (g : grid A) : grid B :=
  match g with
  | Grid2 cells => Grid2 (map (map f) cells)
  | Grid3 cells => Grid3 (map (map (map f)) cells)
  end.

Definition flatten {A : Type} (g : grid A) : list A :=
  match g with
  | Grid2 cells => concat cells
  | Grid3 cells => concat (concat cells)
  end.

(** [True] is 1 and [False] is 0 in every arithmetic operation and comparison. *)
Definition b2q (b : bool) : Q := if b then 1%Q else 0%Q.

Definition values (a : ndarray) : grid Q :=
  match a with
  | BoolArray g => grid_map b2q g
  | NumArray g => g
  end.

Definition greater (x m : Q) : Q := if Qltb m x then x else m.

(** [np.amax(img)]; a zero-size array has no maximum (ValueError). *)
Definition amax (a : ndarray) : option Q :=
  match flatten (values a) with
  | [] => None
  | v :: vs => Some (fold_left (fun m x => greater x m) vs v)
  end.

(** [img / 255.0] *)
Definition divide_255 (a : ndarray) : ndarray :=
  NumArray (grid_map (fun v => (v / 255)%Q) (values a)).

Fixpoint all_some {A : Type} (l : list (option A)) : option (list A) :=
  match l with
  | [] => Some []
  | None :: _ => None
  | Some v :: l' =>
    match all_some l' with
    | None => None
    | Some r => Some (v :: r)
    end
  end.

(** [g[:,:,0]]; a cell without channels has no index 0 (IndexError). *)
Definition first_channel {A : Type} (cells : list (list (list A)))
  : option (list (list A)) :=
  all_some (map (fun row => all_some (map (fun cell => nth_error cell 0) row))
                cells).

(** [img[:,:,0]] when [img.ndim == 3] *)
Definition take_first_channel (a : ndarray) : option ndarray :=
  match a with
  | BoolArray (Grid3 cells) =>
      option_map (fun c => BoolArray (Grid2 c)) (first_channel cells)
  | NumArray (Grid3 cells) =>
      option_map (fun c => NumArray (Grid2 c)) (first_channel cells)
  | _ => Some a
  end.

(** [img > 0.5] on a 2-D array. *)
Definition threshold (a : ndarray) : option (list (list bool)) :=
  match values a with
  | Grid2 cells => Some (map (map (fun v => Qltb (1 # 2) v)) cells)
  | Grid3 _ => None
  end.

(** Lines 28-35: format the image and threshold it. *)
Definition binarize (img : ndarray) : option (list (list bool)) :=
  match amax img with
  | None => None
  | Some m =>
    let img := if Qltb 1 m then divide_255 img else img in
    match take_first_channel img with
    | None => None
    | Some img => threshold img
    end
  end.

Record Point : Type := mkPoint { Point_x : Z; Point_y : Z }.

(** [for c in candidates: if verifyCenter(img,c): centers.append(c)] *)
Fixpoint verified (im : image) (candidates : list point)
  : option (list point) :=
  match candidates with
  | [] => Some []
  | c :: cs =>
    match verifyCenter im c, verified im cs with
    | Some ok, Some centers => Some (if ok then c :: centers else centers)
    | _, _ => None
    end
  end.

Definition getCornerPoints (img : ndarray) : option (list Point) :=
  match binarize img with
  | None => None
  | Some cells =>
    let im := image_of cells in
    let candidates := getCandidates im in
    match verified im candidates with
    | None => None
    | Some centers =>
      match neighborSuppression centers (of_int (rows im) / 5)%Q with
      | None => None
      | Some centers =>
        match getAlignmentPoint centers with
        | None => None
        | Some pt =>
          Some (map (fun c => mkPoint (snd c) (fst c)) (centers ++ [pt]))
        end
      end
    end
  end.

(* ===================================================================== *)
(** ** decode (lines 227-259) *)










Section Decode.

(** The external collaborator: the text of the service's response to the
    posted image ([None] when the request raises) and the cell texts of
    the table rows of a page. *)
Variable response_text : ndarray -> option string.
Variable table_rows : string -> list (list string).


End Decode.

(* ===================================================================== *)
(** ** A 21 x 21 symbol with its three finder patterns *)

Definition finder_rows : list (list bool) :=
  let B := false in
  let W := true in
  [[B; B; B; B; B; B; B];
   [B; W; W; W; W; W; B];
   [B; W; B; B; B; W; B];
   [B; W; B; B; B; W; B];
   [B; W; B; B; B; W; B];
   [B; W; W; W; W; W; B];
   [B; B; B; B; B; B; B]].

Definition white_run : list bool := repeat true 7.

Definition symbol21 : list (list bool) :=
  map (fun r => r ++ white_run ++ r) finder_rows
  ++ repeat (white_run ++ white_run ++ white_run) 7
  ++ map (fun r => r ++ white_run ++ white_run) finder_rows.

(* ===================================================================== *)
(** ** The ratio tests in the binary64 arithmetic of the source *)

(** [float(z)] for an int [z]: the binary64 number nearest to [z], ties to
    even; [None] is the OverflowError of an int too large to convert. *)
Definition float_of_int (z : Z) : option float :=
  let f := SF2Prim (binary_normalize prec emax z 0 false) in
  if PrimFloat.is_infinity f then None else Some f.

(** [a and b]: [b] is evaluated only when [a] is True. *)
Definition and_then (a b : option bool) : option bool :=
  match a with
  | Some true => b
  | _ => a
  end.

(** [abs(c - x) < thresh] for an int [c] and floats [x] and [thresh]. *)
Definition near_binary64 (c : Z) (x thresh : float) : option bool :=
  match float_of_int c with
  | None => None
  | Some fc => Some (PrimFloat.ltb (PrimFloat.abs (PrimFloat.sub fc x)) thresh)
  end.

(** The default [thresh = 2.0] of [checkRatio]. *)
Definition checkRatio_thresh_binary64 : float := 2%float.

(** checkRatio (lines 58-76) as the source computes it; the keyword
    argument [debug] only prints and is left out. *)
Definition checkRatio_binary64 (c1 c2 c3 c4 c5 : Z) (thresh : float)
  : option bool :=
  match float_of_int (c1 + c2 + c3 + c4 + c5) with
  | None => None
  | Some sum =>
    let total := PrimFloat.div sum 7%float in
    (* Left edge check *)
    if PrimFloat.ltb total 1%float then Some false
    else
      and_then (near_binary64 c1 total thresh)
        (and_then (near_binary64 c2 total thresh)
           (and_then (near_binary64 c3 (PrimFloat.mul 3%float total) thresh)
              (and_then (near_binary64 c4 total thresh)
                        (near_binary64 c5 total thresh))))
  end.

(** The default [thresh = 1.0] of [verifyRatio]. *)
Definition verifyRatio_thresh_binary64 : float := 1%float.

(** verifyRatio (lines 136-143) as the source computes it. *)
Definition verifyRatio_binary64 (c1 c2 c3 : Z) (thresh : float)
  : option bool :=
  match float_of_int (c1 + c2 + c3) with
  | None => None
  | Some sum =>
    let total := PrimFloat.div sum 3.5%float in
    and_then (near_binary64 c1 (PrimFloat.mul 1.5%float total) thresh)
      (and_then (near_binary64 c2 total thresh)
                (near_binary64 c3 total thresh))
  end.

(** *** Tables for the comparison with the exact tests *)

(** The conversion of a natural number below 2^63 by the primitive. *)
Definition float_of_uint63 (z : Z) : float :=
  PrimFloat.of_uint63 (Uint63.of_Z z).

(** [p] holds of the [n] integers from [a] on. *)
Fixpoint all_from (n : nat) (a : Z) (p : Z -> bool) : bool :=
  match n with
  | O => true
  | S n' => if p a then all_from n' (a + 1) p else false
  end.

(** The [n] integers from [a] on, each with its float. *)
Fixpoint float_table (n : nat) (a : Z) : list (Z * float) :=
  match n with
  | O => []
  | S n' => (a, float_of_uint63 a) :: float_table n' (a + 1)
  end.

(** [- b < x < b] *)
Definition strictly_within (b x : Z) : bool := (- b <? x) && (x <? b).

(** For the sum [s] and every run [c] of the table: the sum converts, the
    left edge check and the two distance tests of [checkRatio] in binary64
    decide as the exact tests scaled by 7. *)
Definition agree_row5 (runs : list (Z * float)) (s : Z) : bool :=
  let fs := float_of_uint63 s in
  let total := PrimFloat.div fs 7%float in
  let total3 := PrimFloat.mul 3%float total in
  negb (PrimFloat.is_infinity fs)
  && Bool.eqb (PrimFloat.ltb total 1%float) (s <? 7)
  && forallb (fun cf =>
                negb (PrimFloat.is_infinity (snd cf))
                && Bool.eqb (PrimFloat.ltb
                               (PrimFloat.abs (PrimFloat.sub (snd cf) total))
                               2%float)
                            (strictly_within 14 (7 * fst cf - s))
                && Bool.eqb (PrimFloat.ltb
                               (PrimFloat.abs (PrimFloat.sub (snd cf) total3))
                               2%float)
                            (strictly_within 14 (7 * fst cf - 3 * s)))
             runs.

(** All runs up to [w] against all sums up to [5 w]. *)
Definition agree_box5 (w : nat) : bool :=
  all_from (S (5 * w)) 0 (agree_row5 (float_table (S w) 0)).

(** The same for the two distance tests of [verifyRatio]. *)
Definition agree_row3 (runs : list (Z * float)) (s : Z) : bool :=
  let fs := float_of_uint63 s in
  let total := PrimFloat.div fs 3.5%float in
  let total15 := PrimFloat.mul 1.5%float total in
  negb (PrimFloat.is_infinity fs)
  && forallb (fun cf =>
                negb (PrimFloat.is_infinity (snd cf))
                && Bool.eqb (PrimFloat.ltb
                               (PrimFloat.abs (PrimFloat.sub (snd cf) total15))
                               1%float)
                            (strictly_within 7 (7 * fst cf - 3 * s))
                && Bool.eqb (PrimFloat.ltb
                               (PrimFloat.abs (PrimFloat.sub (snd cf) total))
                               1%float)
                            (strictly_within 7 (7 * fst cf - 2 * s)))
             runs.

Definition agree_box3 (w : nat) : bool :=
  all_from (S (3 * w)) 0 (agree_row3 (float_table (S w) 0)).

(** [checkRatio(k, k, 3k, k, k)] is True, with the conversions of the
    primitive. *)
Definition exact_window5 (k : Z) : bool :=
  let fs := float_of_uint63 (k + k + 3 * k + k + k) in
  let fk := float_of_uint63 k in
  let f3k := float_of_uint63 (3 * k) in
  let total := PrimFloat.div fs 7%float in
  negb (PrimFloat.is_infinity fs) && negb (PrimFloat.is_infinity fk)
  && negb (PrimFloat.is_infinity f3k)
  && negb (PrimFloat.ltb total 1%float)
  && PrimFloat.ltb (PrimFloat.abs (PrimFloat.sub fk total)) 2%float
  && PrimFloat.ltb (PrimFloat.abs
                      (PrimFloat.sub f3k (PrimFloat.mul 3%float total)))
                   2%float.

(** [verifyRatio(3k, 2k, 2k)] is True, with the conversions of the
    primitive. *)
Definition exact_window3 (k : Z) : bool :=
  let fs := float_of_uint63 (3 * k + 2 * k + 2 * k) in
  let f3k := float_of_uint63 (3 * k) in
  let f2k := float_of_uint63 (2 * k) in
  let total := PrimFloat.div fs 3.5%float in
  negb (PrimFloat.is_infinity fs) && negb (PrimFloat.is_infinity f3k)
  && negb (PrimFloat.is_infinity f2k)
  && PrimFloat.ltb (PrimFloat.abs
                      (PrimFloat.sub f3k (PrimFloat.mul 1.5%float total)))
                   1%float
  && PrimFloat.ltb (PrimFloat.abs (PrimFloat.sub f2k total)) 1%float.

(* ===================================================================== *)
(** ** Vocabulary of the further properties *)

(** [s] is [l] with some elements left out, the others in their order. *)
Inductive subseq {A : Type} : list A -> list A -> Prop :=
| subseq_nil : subseq [] []
| subseq_keep (a : A) (s l : list A) : subseq s l -> subseq (a :: s) (a :: l)
| subseq_drop (a : A) (s l : list A) : subseq s l -> subseq s (a :: l).

(** *** The pixels along a walk

    The pixels that a walk from [(i, j)] with the step [(dy, dx)] crosses
    before it leaves the array, at most [fuel] of them. *)
Fixpoint ray (fuel : nat) (im : image) (dx dy i j : Z) : list bool :=
  match fuel with
  | O => []
  | S fuel' =>
    if in_bounds im i j
    then getitem im i j :: ray fuel' im dx dy (i + dy) (j + dx)
    else []
  end.

(** The number of leading pixels of one colour. *)
Fixpoint leading (colour : bool) (l : list bool) : nat :=
  match l with
  | [] => O
  | p :: l' => if Bool.eqb p colour then S (leading colour l') else O
  end.

(** The lengths of the leading black run, of the white run after it and of
    the black run after that. *)
Definition black_white_black (l : list bool) : Z * Z * Z :=
  let b1 := leading false l in
  let l1 := skipn b1 l in
  let w := leading true l1 in
  let l2 := skipn w l1 in
  (Z.of_nat b1, Z.of_nat w, Z.of_nat (leading false l2)).

(** *** The cross-section of a finder pattern

    Runs in the proportion 1 : 1 : 3 : 1 : 1, black first, of unit [k]. *)
Definition cross_section (k : nat) : list bool :=
  repeat false k ++ repeat true k ++ repeat false (3 * k)
  ++ repeat true k ++ repeat false k.

(* ===================================================================== *)
(** * Properties *)

(** ** Comparisons of rationals *)

Lemma Qltb_lt (x y : Q) : Qltb x y = true <-> (x < y)%Q.
Proof.
  unfold Qltb. rewrite negb_true_iff, <- not_true_iff_false, Qle_bool_iff.
  split; [apply Qnot_le_lt | apply Qlt_not_le].
Qed.

Lemma Qltb_ge (x y : Q) : Qltb x y = false <-> (y <= x)%Q.
Proof.
  unfold Qltb. rewrite negb_false_iff. apply Qle_bool_iff.
Qed.

(** Turns a comparison of rationals built from integer run lengths into a
    linear problem on the integers. *)
Ltac q_to_z :=
  rewrite ?Qabs_Qlt_condition;
  unfold of_int, Qlt, Qle, Qminus, Qplus, Qopp, Qdiv, Qmult, Qinv, inject_Z;
  cbn [Qnum Qden]; rewrite ?Pos2Z.inj_mul; lia.

(** ** The ratio tests on the integers *)

Lemma total5_lt_1 (s : Z) : (of_int s / 7 < 1)%Q <-> s < 7.
Proof. q_to_z. Qed.

Lemma off_total5 (c s : Z) :
  (Qabs (of_int c - of_int s / 7) < 2)%Q <-> -14 < 7 * c - s < 14.
Proof. q_to_z. Qed.

Lemma off_3total5 (c s : Z) :
  (Qabs (of_int c - 3 * (of_int s / 7)) < 2)%Q <-> -14 < 7 * c - 3 * s < 14.
Proof. q_to_z. Qed.

Lemma off_total3 (c s : Z) :
  (Qabs (of_int c - of_int s / (7 # 2)) < 1)%Q <-> -7 < 7 * c - 2 * s < 7.
Proof. q_to_z. Qed.

Lemma off_15total3 (c s : Z) :
  (Qabs (of_int c - (3 # 2) * (of_int s / (7 # 2))) < 1)%Q
  <-> -7 < 7 * c - 3 * s < 7.
Proof. q_to_z. Qed.

(** [checkRatio] for any threshold: the left edge check, then the five
    distances in the order of line 71. *)
Lemma checkRatio_true_iff (c1 c2 c3 c4 c5 : Z) (thresh : Q) :
  let total := checkRatio_total c1 c2 c3 c4 c5 in
  checkRatio c1 c2 c3 c4 c5 thresh = true <->
  (~ (total < 1) /\
   Qabs (of_int c1 - total) < thresh /\
   Qabs (of_int c2 - total) < thresh /\
   Qabs (of_int c3 - 3 * total) < thresh /\
   Qabs (of_int c4 - total) < thresh /\
   Qabs (of_int c5 - total) < thresh)%Q.
Proof.
  intros total. unfold checkRatio. fold total.
  destruct (Qltb total 1) eqn:Hedge.
  - apply Qltb_lt in Hedge. split; [discriminate | tauto].
  - apply Qltb_ge in Hedge.
    match goal with
    | |- (if ?b then true else false) = true <-> _ =>
        replace (if b then true else false) with b by (destruct b; reflexivity)
    end.
    rewrite !andb_true_iff, !Qltb_lt.
    split.
    + intros [[[[H1 H2] H3] H4] H5]. repeat split; try assumption.
      now apply Qle_not_lt.
    + intros (_ & H1 & H2 & H3 & H4 & H5). tauto.
Qed.


(** The default test on the integers: all the distances scaled by 7. *)
Lemma checkRatio_default_Z (c1 c2 c3 c4 c5 : Z) :
  let s := c1 + c2 + c3 + c4 + c5 in
  checkRatio c1 c2 c3 c4 c5 checkRatio_thresh = true <->
  7 <= s /\
  -14 < 7 * c1 - s < 14 /\ -14 < 7 * c2 - s < 14 /\
  -14 < 7 * c3 - 3 * s < 14 /\
  -14 < 7 * c4 - s < 14 /\ -14 < 7 * c5 - s < 14.
Proof.
  intros s. rewrite checkRatio_true_iff.
  unfold checkRatio_total, checkRatio_thresh. fold s.
  rewrite total5_lt_1, !off_total5, off_3total5. lia.
Qed.



(** [verifyRatio] for any threshold, in the order of line 140. *)
Lemma verifyRatio_true_iff (c1 c2 c3 : Z) (thresh : Q) :
  let total := verifyRatio_total c1 c2 c3 in
  verifyRatio c1 c2 c3 thresh = true <->
  (Qabs (of_int c1 - (3 # 2) * total) < thresh /\
   Qabs (of_int c2 - total) < thresh /\
   Qabs (of_int c3 - total) < thresh)%Q.
Proof.
  intros total. unfold verifyRatio. fold total.
  match goal with
  | |- (if ?b then true else false) = true <-> _ =>
      replace (if b then true else false) with b by (destruct b; reflexivity)
  end.
  rewrite !andb_true_iff, !Qltb_lt. tauto.
Qed.

(** The default test on the integers: all the distances scaled by 7. *)
Lemma verifyRatio_default_Z (c1 c2 c3 : Z) :
  let s := c1 + c2 + c3 in
  verifyRatio c1 c2 c3 verifyRatio_thresh = true <->
  -7 < 7 * c1 - 3 * s < 7 /\ -7 < 7 * c2 - 2 * s < 7 /\
  -7 < 7 * c3 - 2 * s < 7.
Proof.
  intros s. rewrite verifyRatio_true_iff.
  unfold verifyRatio_total, verifyRatio_thresh. fold s.
  now rewrite off_15total3, !off_total3.
Qed.

Lemma verifyRatio_zero : verifyRatio 0 0 0 verifyRatio_thresh = true.
Proof. apply verifyRatio_default_Z. lia. Qed.

(** ** The directional walks *)

(** Both exits of the loop hand the counters to [verifyRatio]. *)
Lemma verifyDirection_loop_runs (im : image) (dx dy : Z) (fuel : nat) :
  forall prev c1 c2 c3 i j,
    verifyDirection_loop fuel im dx dy prev c1 c2 c3 i j
    = option_map accepts (walk_runs fuel im dx dy prev c1 c2 c3 i j).
Proof.
  induction fuel as [|fuel IH]; intros prev c1 c2 c3 i j; simpl.
  - reflexivity.
  - destruct (in_bounds im i j); [|reflexivity].
    destruct (getitem im i j).
    + destruct (prev <? 2); [apply IH | reflexivity].
    + destruct (prev =? 0); apply IH.
Qed.

Lemma verifyDirection_runs (im : image) (loc : point) (dx dy : Z) :
  verifyDirection im loc dx dy = option_map accepts (direction_runs im loc dx dy).
Proof. apply verifyDirection_loop_runs. Qed.

Lemma in_bounds_rows (im : image) (i j : Z) :
  in_bounds im i j = true -> 0 <= i < rows im.
Proof.
  unfold in_bounds. rewrite !andb_true_iff. lia.
Qed.

(** A walk that goes down leaves the array within [rows - i] steps. *)
Lemma walk_runs_down (im : image) (dx dy : Z) (fuel : nat) :
  0 < dy ->
  forall prev c1 c2 c3 i j,
    (Z.to_nat (rows im - Z.max i 0) < fuel)%nat ->
    exists runs, walk_runs fuel im dx dy prev c1 c2 c3 i j = Some runs.
Proof.
  intros Hdy. induction fuel as [|fuel IH]; intros prev c1 c2 c3 i j Hfuel.
  - lia.
  - simpl. destruct (in_bounds im i j) eqn:Hin; [|eauto].
    apply in_bounds_rows in Hin.
    assert (Hnext : (Z.to_nat (rows im - Z.max (i + dy) 0) < fuel)%nat) by lia.
    destruct (getitem im i j).
    + destruct (prev <? 2); [apply IH, Hnext | eauto].
    + destruct (prev =? 0); apply IH, Hnext.
Qed.

(** A walk that goes up leaves the array within [i + 1] steps. *)
Lemma walk_runs_up (im : image) (dx dy : Z) (fuel : nat) :
  dy < 0 ->
  forall prev c1 c2 c3 i j,
    (Z.to_nat (Z.min i (rows im - 1) + 1) < fuel)%nat ->
    exists runs, walk_runs fuel im dx dy prev c1 c2 c3 i j = Some runs.
Proof.
  intros Hdy. induction fuel as [|fuel IH]; intros prev c1 c2 c3 i j Hfuel.
  - lia.
  - simpl. destruct (in_bounds im i j) eqn:Hin; [|eauto].
    apply in_bounds_rows in Hin.
    assert (Hnext : (Z.to_nat (Z.min (i + dy) (rows im - 1) + 1) < fuel)%nat)
      by lia.
    destruct (getitem im i j).
    + destruct (prev <? 2); [apply IH, Hnext | eauto].
    + destruct (prev =? 0); apply IH, Hnext.
Qed.

(** Every walk with a vertical step returns: the fuel of [verifyDirection]
    is never exhausted. *)
Lemma direction_runs_total (im : image) (loc : point) (dx dy : Z) :
  dy <> 0 -> exists runs, direction_runs im loc dx dy = Some runs.
Proof.
  intros Hdy. unfold direction_runs, walk_fuel.
  destruct (Z.lt_ge_cases 0 dy).
  - apply walk_runs_down; lia.
  - apply walk_runs_up; lia.
Qed.


(** C10. [verifyRatio(0, 0, 0)] is true under the default threshold; so at
    every location outside the image the three walks end at once with the
    run lengths 0, 0, 0 and [verifyCenter] returns true. *)
Theorem verifyCenter_out_of_bounds :
  verifyRatio 0 0 0 verifyRatio_thresh = true /\
  (forall (im : image) (loc : point),
      in_bounds im (fst loc) (snd loc) = false ->
      direction_runs im loc 0 (-1) = Some (0, 0, 0) /\
      direction_runs im loc 0 1 = Some (0, 0, 0) /\
      direction_runs im loc 1 1 = Some (0, 0, 0) /\
      verifyCenter im loc = Some true).
Proof.
  split; [exact verifyRatio_zero|].
  intros im loc Hout.
  assert (Hruns : forall dx dy, direction_runs im loc dx dy = Some (0, 0, 0)).
  { intros dx dy. unfold direction_runs, walk_fuel. simpl. now rewrite Hout. }
  repeat split; try apply Hruns.
  unfold verifyCenter. rewrite !verifyDirection_runs, !Hruns. simpl.
  now rewrite verifyRatio_zero.
Qed.

(** C10 in a 2 x 2 image, at the location (2, 0) just below it. *)
Lemma verifyCenter_out_of_bounds_witness :
  verifyCenter (image_of [[true; false]; [false; true]]) (2, 0) = Some true.
Proof.
  apply (proj2 verifyCenter_out_of_bounds
               (image_of [[true; false]; [false; true]]) (2, 0)).
  reflexivity.
Defined.

(** ** neighborSuppression *)

Lemma del_at_middle {A : Type} (front back : list A) (x : A) :
  del_at (front ++ x :: back) (length front) = front ++ back.
Proof.
  unfold del_at.
  rewrite firstn_app, Nat.sub_diag, firstn_all, app_nil_r.
  replace (S (length front)) with (length (front ++ [x]))
    by (rewrite length_app; simpl; lia).
  replace (front ++ x :: back) with ((front ++ [x]) ++ back)
    by (rewrite <- app_assoc; reflexivity).
  rewrite skipn_app, Nat.sub_diag, skipn_all. reflexivity.
Qed.

(** Deleting, from the highest index down, the indices of the window
    [rest] that a test selects leaves the cells around the window alone and
    keeps the unselected cells of the window in their order. *)
Lemma delete_selected {A : Type} (d : A) (p : A -> bool) (q : nat -> bool) :
  forall rest front back,
    (forall k, (k < length rest)%nat ->
               q (length front + k)%nat = p (nth k rest d)) ->
    fold_left del_at (rev (filter q (seq (length front) (length rest))))
              (front ++ rest ++ back)
    = front ++ filter (fun c => negb (p c)) rest ++ back.
Proof.
  induction rest as [|x rest IH] using rev_ind; intros front back Hq.
  - reflexivity.
  - assert (Hx : q (length front + length rest)%nat = p x).
    { rewrite (Hq (length rest)); rewrite ?length_app; simpl; try lia.
      now rewrite nth_middle. }
    assert (Hrest : forall k, (k < length rest)%nat ->
                              q (length front + k)%nat = p (nth k rest d)).
    { intros k Hk. rewrite Hq by (rewrite length_app; simpl; lia).
      now rewrite app_nth1. }
    rewrite length_app. simpl length.
    rewrite seq_app, filter_app, rev_app_distr, fold_left_app.
    rewrite filter_app. simpl seq. simpl filter. rewrite Hx.
    destruct (p x); simpl.
    + replace (front ++ (rest ++ [x]) ++ back)
        with ((front ++ rest) ++ x :: back)
        by (rewrite <- !app_assoc; reflexivity).
      replace (length front + length rest)%nat with (length (front ++ rest))
        by apply length_app.
      rewrite del_at_middle, <- app_assoc, IH by exact Hrest.
      now rewrite app_nil_r.
    + replace (front ++ (rest ++ [x]) ++ back)
        with (front ++ rest ++ x :: back)
        by (rewrite <- !app_assoc; reflexivity).
      rewrite IH by exact Hrest.
      now rewrite <- !app_assoc.
Qed.

(** One pass at index [i]: the cells up to [i] stay, the later cells near
    [centers[i]] go. *)
Lemma suppress_from_filter (thresh : Q) (front rest : list point) (c : point) :
  suppress_from thresh (front ++ c :: rest) (length front)
  = front ++ c :: filter (fun c2 => negb (near thresh c c2)) rest.
Proof.
  unfold suppress_from, removal_list.
  assert (Hc : center_at (front ++ c :: rest) (length front) = c)
    by apply nth_middle.
  rewrite Hc.
  replace (length (front ++ c :: rest) - S (length front))%nat
    with (length rest) by (rewrite length_app; simpl; lia).
  replace (S (length front)) with (length (front ++ [c]))
    by (rewrite length_app; simpl; lia).
  replace (front ++ c :: rest) with ((front ++ [c]) ++ rest ++ [])
    by (rewrite app_nil_r, <- app_assoc; reflexivity).
  rewrite (delete_selected (0, 0) (near thresh c)).
  - now rewrite app_nil_r, <- app_assoc.
  - intros k Hk. unfold center_at. f_equal.
    rewrite app_nil_r, app_nth2_plus. reflexivity.
Qed.

(** The loop at index [length front], with fuel for the remaining cells,
    returns the cells before the index and the forward suppression of the
    others. *)
Lemma neighborSuppression_loop_suppress (thresh : Q) (fuel : nat) :
  forall front l,
    (length l < fuel)%nat ->
    neighborSuppression_loop fuel thresh (length front) (front ++ l)
    = Some (front ++ suppress thresh l).
Proof.
  unfold suppress.
  induction fuel as [|fuel IH]; intros front l Hfuel; [lia|].
  simpl. destruct l as [|c rest].
  - rewrite app_nil_r, Nat.ltb_irrefl. simp suppress_by.
    now rewrite app_nil_r.
  - assert (Hlt : (length front <? length (front ++ c :: rest))%nat = true).
    { apply Nat.ltb_lt. rewrite length_app. simpl. lia. }
    rewrite Hlt, suppress_from_filter. simp suppress_by.
    replace (S (length front)) with (length (front ++ [c]))
      by (rewrite length_app; simpl; lia).
    replace (front ++ c :: filter (fun c2 => negb (near thresh c c2)) rest)
      with ((front ++ [c]) ++ filter (fun c2 => negb (near thresh c c2)) rest)
      by (rewrite <- app_assoc; reflexivity).
    rewrite IH.
    + now rewrite <- app_assoc.
    + pose proof (filter_length_le (fun c2 => negb (near thresh c c2)) rest).
      simpl in Hfuel. lia.
Qed.

(** The loop of the source always returns, with the forward suppression of
    its input. *)
Lemma neighborSuppression_suppress (centers : list point) (thresh : Q) :
  neighborSuppression centers thresh = Some (suppress thresh centers).
Proof.
  unfold neighborSuppression.
  apply (neighborSuppression_loop_suppress thresh (S (length centers)) []).
  lia.
Qed.

Lemma suppress_nil (thresh : Q) : suppress thresh [] = [].
Proof. unfold suppress. now simp suppress_by. Qed.

Lemma suppress_cons (thresh : Q) (c : point) (rest : list point) :
  suppress thresh (c :: rest)
  = c :: suppress thresh (filter (fun c2 => negb (near thresh c c2)) rest).
Proof. unfold suppress. now simp suppress_by. Qed.

(** C2, as stated, fails: with the threshold 10 the point (0, 5) has the
    squared row difference 0 and the raw column difference -5 from the
    earlier survivor (0, 0), under the threshold, and yet it is kept: its
    squared column difference is 25. *)
Lemma neighborSuppression_raw_column_counterexample :
  near_raw 10 (0, 0) (0, 5) = true /\
  near_raw 10 (0, 5) (0, 0) = true /\
  neighborSuppression [(0, 0); (0, 5)] 10 = Some [(0, 0); (0, 5)] /\
  neighborSuppression [(0, 0); (0, 5)] 10
  <> Some (suppress_by (near_raw 10) [(0, 0); (0, 5)]).
Proof.
  repeat split; try reflexivity.
  simp suppress_by. simpl. simp suppress_by. discriminate.
Qed.

(** C2, amended. A later point is removed exactly when its squared row
    difference plus its squared column difference from an earlier surviving
    point is under the threshold, scanning forward from each surviving
    point in list order: the loop returns, and its result is the first
    point followed by the result for the later points not within that
    squared distance of it. *)
Theorem neighborSuppression_spec :
  forall (centers : list point) (thresh : Q),
    neighborSuppression centers thresh = Some (suppress thresh centers) /\
    suppress thresh [] = [] /\
    (forall (c : point) (rest : list point),
        suppress thresh (c :: rest)
        = c :: suppress thresh
                 (filter (fun c2 =>
                            negb (Qltb (of_int ((fst c - fst c2) ^ 2
                                                + (snd c - snd c2) ^ 2))
                                       thresh))
                         rest)).
Proof.
  intros centers thresh. split; [apply neighborSuppression_suppress|].
  split; [apply suppress_nil|]. intros c rest. apply suppress_cons.
Qed.

Lemma filter_none {A : Type} (f : A -> bool) (l : list A) :
  Forall (fun a => f a = false) l -> filter f l = [].
Proof.
  induction 1 as [|a l Ha _ IH]; simpl; [reflexivity|]. now rewrite Ha.
Qed.

Lemma filter_all {A : Type} (f : A -> bool) (l : list A) :
  Forall (fun a => f a = true) l -> filter f l = l.
Proof.
  induction 1 as [|a l Ha _ IH]; simpl; [reflexivity|]. now rewrite Ha, IH.
Qed.

(** Later points all near the first one: only the first survives. *)
Lemma suppress_cluster (thresh : Q) (c : point) (rest : list point) :
  Forall (fun c2 => near thresh c c2 = true) rest ->
  suppress thresh (c :: rest) = [c].
Proof.
  intros H. rewrite suppress_cons, filter_none, suppress_nil; [reflexivity|].
  eapply Forall_impl; [|exact H]. intros c2 Hc2. simpl. now rewrite Hc2.
Qed.

(** No point near an earlier one: nothing is removed. *)
Lemma suppress_scattered (thresh : Q) (centers : list point) :
  ForallOrdPairs (fun a b => near thresh a b = false) centers ->
  suppress thresh centers = centers.
Proof.
  induction 1 as [|c rest Hc _ IH]; [apply suppress_nil|].
  rewrite suppress_cons, filter_all, IH; [reflexivity|].
  eapply Forall_impl; [|exact Hc]. intros c2 Hc2. simpl. now rewrite Hc2.
Qed.

(** C5. Given points that are all within the threshold of each other (every
    pair passes the test of line 200), [neighborSuppression] returns exactly
    one point, the first in input order; given points that are pairwise not
    within the threshold, it returns all of them unchanged and in their
    order. *)
Theorem neighborSuppression_clusters :
  (forall (thresh : Q) (c : point) (rest : list point),
      ForallOrdPairs (fun a b => near thresh a b = true) (c :: rest) ->
      neighborSuppression (c :: rest) thresh = Some [c]) /\
  (forall (thresh : Q) (centers : list point),
      ForallOrdPairs (fun a b => near thresh a b = false) centers ->
      neighborSuppression centers thresh = Some centers).
Proof.
  split.
  - intros thresh c rest H. rewrite neighborSuppression_suppress.
    inversion H as [|a l Hc Hrest]; subst.
    now rewrite suppress_cluster.
  - intros thresh centers H. rewrite neighborSuppression_suppress.
    now rewrite suppress_scattered.
Qed.

(** C5 at three points within squared distance 10 of each other, and at
    three points pairwise farther apart. *)
Lemma neighborSuppression_clusters_witness :
  neighborSuppression [(0, 0); (1, 1); (2, 0)] 10 = Some [(0, 0)] /\
  neighborSuppression [(0, 0); (0, 5); (20, 20)] 10
  = Some [(0, 0); (0, 5); (20, 20)].
Proof.
  split.
  - apply (proj1 neighborSuppression_clusters 10%Q (0, 0) [(1, 1); (2, 0)]).
    repeat constructor.
  - apply (proj2 neighborSuppression_clusters 10%Q [(0, 0); (0, 5); (20, 20)]).
    repeat constructor.
Defined.

(** ** getAlignmentPoint *)

(** C4. For the three points [top_left, top_right, bottom_left] in (row,
    col) form [getAlignmentPoint] returns top_left + (top_right - top_left)
    + (bottom_left - top_left), which is top_right + bottom_left - top_left
    in each component; for (0,0), (0,10), (10,0) it returns (10,10). *)
Theorem getAlignmentPoint_spec :
  (forall top_left top_right bottom_left : point,
      getAlignmentPoint [top_left; top_right; bottom_left]
      = Some (fst top_left + (fst top_right - fst top_left)
              + (fst bottom_left - fst top_left),
              snd top_left + (snd top_right - snd top_left)
              + (snd bottom_left - snd top_left)) /\
      getAlignmentPoint [top_left; top_right; bottom_left]
      = Some (fst top_right + fst bottom_left - fst top_left,
              snd top_right + snd bottom_left - snd top_left)) /\
  getAlignmentPoint [(0, 0); (0, 10); (10, 0)] = Some (10, 10).
Proof.
  split; [|reflexivity].
  intros top_left top_right bottom_left. split; [reflexivity|].
  unfold getAlignmentPoint. simpl. do 2 f_equal; lia.
Qed.

(** C9. [getAlignmentPoint] reads the first three elements of [centers] by
    position: with fewer than three elements an index is out of range and
    no point is produced; with three or more a point is produced, and it
    is that of the first three elements alone. *)
Theorem getAlignmentPoint_positional :
  (forall centers : list point,
      (length centers < 3)%nat -> getAlignmentPoint centers = None) /\
  (forall centers : list point,
      (3 <= length centers)%nat ->
      (exists pt, getAlignmentPoint centers = Some pt) /\
      getAlignmentPoint centers = getAlignmentPoint (firstn 3 centers)) /\
  (forall (a b c : point) (later later' : list point),
      getAlignmentPoint (a :: b :: c :: later)
      = getAlignmentPoint (a :: b :: c :: later')).
Proof.
  split; [|split].
  - intros [|a [|b [|c later]]] H; simpl in H; try lia; reflexivity.
  - intros [|a [|b [|c later]]] H; simpl in H; try lia.
    split; [eexists|]; reflexivity.
  - reflexivity.
Qed.

(** C9 at a list of two points and at a list of four. *)
Lemma getAlignmentPoint_positional_witness :
  getAlignmentPoint [(0, 0); (0, 10)] = None /\
  getAlignmentPoint [(0, 0); (0, 10); (10, 0); (7, 7)]
  = getAlignmentPoint (firstn 3 [(0, 0); (0, 10); (10, 0); (7, 7)]).
Proof.
  split.
  - apply (proj1 getAlignmentPoint_positional [(0, 0); (0, 10)]). simpl. lia.
  - apply (proj1 (proj2 getAlignmentPoint_positional)
                 [(0, 0); (0, 10); (10, 0); (7, 7)]).
    simpl. lia.
Defined.

(** ** Reads of the array *)

(** Under the guards of the loops a read of a well-shaped array hits a cell
    of the array. *)
Lemma getitem_in_bounds (im : image) (i j : Z) :
  image_ok im ->
  in_bounds im i j = true ->
  exists row,
    nth_error (pixels im) (Z.to_nat i) = Some row /\
    nth_error row (Z.to_nat j) = Some (getitem im i j).
Proof.
  intros [Hrows Hcols] Hin. unfold in_bounds in Hin.
  rewrite !andb_true_iff in Hin.
  destruct Hin as [[[Hi0 Hi] Hj0] Hj].
  apply Z.leb_le in Hi0, Hj0. apply Z.ltb_lt in Hi, Hj.
  assert (Hlen : (Z.to_nat i < length (pixels im))%nat) by lia.
  exists (nth (Z.to_nat i) (pixels im) []). split.
  - now apply nth_error_nth'.
  - rewrite Forall_forall in Hcols.
    specialize (Hcols (nth (Z.to_nat i) (pixels im) [])
                      (nth_In _ _ Hlen)).
    unfold getitem. apply nth_error_nth'. lia.
Qed.

Lemma image_of_ok (l : list (list bool)) :
  Forall (fun r => length r = length (hd [] l)) l -> image_ok (image_of l).
Proof.
  intros H. split; [reflexivity|]. simpl.
  eapply Forall_impl; [|exact H]. intros r Hr. simpl in Hr. now rewrite Hr.
Qed.

(** ** getCandidates *)

Lemma range_columns (n : Z) : range n = columns (Z.to_nat n).
Proof. reflexivity. Qed.

Lemma columns_succ (n : nat) : columns (S n) = columns n ++ [Z.of_nat n].
Proof.
  unfold columns. now rewrite seq_S, map_app.
Qed.

Lemma scan_prefix_succ (im : image) (i : Z) (candidates : list point) (n : nat) :
  scan_prefix im i candidates (S n)
  = scan_pixel im i (scan_prefix im i candidates n) (Z.of_nat n).
Proof.
  unfold scan_prefix. now rewrite columns_succ, fold_left_app.
Qed.

Lemma row_history_succ (im : image) (i : Z) (n : nat) :
  row_history im i (S n)
  = run_step (row_history im i n) (getitem im i (Z.of_nat n)).
Proof.
  unfold row_history. now rewrite columns_succ, fold_left_app.
Qed.

(** A pixel moves the counters as it moves the runs. *)
Lemma scan_counters_history (white : bool) (h : history) :
  scan_counters white (counters_of h) = counters_of (run_step h white).
Proof.
  destruct h as [[|] [|r0 rs]], white; reflexivity.
Qed.

(** The counters after [n] pixels are those of the runs of these pixels. *)
Lemma scan_prefix_counters (im : image) (i : Z) (candidates : list point)
      (n : nat) :
  fst (scan_prefix im i candidates n) = counters_of (row_history im i n).
Proof.
  induction n as [|n IH]; [reflexivity|].
  rewrite scan_prefix_succ, row_history_succ. unfold scan_pixel. simpl fst.
  rewrite IH. apply scan_counters_history.
Qed.

(** In an array without columns the right edge check fails on the start
    state, so the unbound [j] is never read. *)
Lemma right_edge_never_reads_unbound_j (im : image) (i j : Z)
      (candidates : list point) :
  cols im <= 0 ->
  emitted i j (fst (scan_columns im i candidates)) = [].
Proof.
  intros H. unfold scan_columns, range.
  replace (Z.to_nat (cols im)) with O by lia. reflexivity.
Qed.

(** C6, as stated, fails at a white-to-black transition.  In the row
    B W BB WW B W B the pixel of column 8 is black after a white one; the
    five runs closed there (W, BB, WW, B, W: 1, 2, 2, 1, 1) and the five
    counters (1, 2, 2, 1, 1) pass the ratio check, and no candidate is
    appended at that column. *)
Lemma getCandidates_white_to_black_counterexample :
  let im :=
    image_of [[false; true; false; false; true; true; false; true; false]] in
  let st := scan_prefix im 0 [] 8 in
  getitem im 0 7 = true /\ getitem im 0 8 = false /\
  row_history im 0 8 = (true, [1; 1; 2; 2; 1; 1]) /\
  checkRatio 1 2 2 1 1 checkRatio_thresh = true /\
  fst st = mkScan 1 2 2 1 1 true /\
  check_scan (fst st) = true /\
  snd (scan_pixel im 0 st 8) = snd st /\
  snd (scan_pixel im 0 st 8)
  <> snd st ++ [(0, center_col 8 (fst st)); (0, center_col 8 (fst st) + 1)] /\
  getCandidates im = [(0, 3); (0, 4)].
Proof.
  vm_compute. repeat split; try reflexivity. discriminate.
Qed.

(** What the pixel of column [n] appends, in terms of the runs before it. *)
Lemma scan_prefix_emits (im : image) (i : Z) (candidates : list point)
      (n : nat) :
  let j := Z.of_nat n in
  let h := row_history im i n in
  snd (scan_prefix im i candidates (S n))
  = snd (scan_prefix im i candidates n)
    ++ (if getitem im i j && negb (fst h) then
          if checkRatio (run 4 h) (run 3 h) (run 2 h) (run 1 h) (run 0 h)
                        checkRatio_thresh
          then [(i, j - run 0 h - run 1 h - run 2 h / 2);
                (i, j - run 0 h - run 1 h - run 2 h / 2 + 1)]
          else []
        else []).
Proof.
  intros j h. rewrite scan_prefix_succ. unfold scan_pixel. simpl snd.
  rewrite scan_prefix_counters. fold j h. f_equal.
  unfold scan_emits, counters_of.
  destruct (getitem im i j), (fst h); reflexivity.
Qed.

(** C6, amended. In every row the ratio check is made at a black-to-white
    transition only (a white pixel after a black one); the five counters
    are then the lengths of the last five runs, black-white-black-white-
    black, the last of them just closed; when the check passes exactly two
    candidates are appended, in the same row, at the columns
    j - c5 - c4 - floor(c3/2) and that column plus 1, and no other pixel
    appends anything.  After the row a final check on the counters appends
    the two candidates offset from column j+1, j being the last column. *)
Theorem getCandidates_spec :
  forall im : image,
    (forall (i : Z) (candidates : list point) (n : nat),
        let j := Z.of_nat n in
        let h := row_history im i n in
        fst (scan_prefix im i candidates n) = counters_of h /\
        (fst h = false ->
         counters_of h
         = mkScan (run 4 h) (run 3 h) (run 2 h) (run 1 h) (run 0 h) false) /\
        snd (scan_prefix im i candidates (S n))
        = snd (scan_prefix im i candidates n)
          ++ (if getitem im i j && negb (fst h) then
                if checkRatio (run 4 h) (run 3 h) (run 2 h) (run 1 h) (run 0 h)
                              checkRatio_thresh
                then [(i, j - run 0 h - run 1 h - run 2 h / 2);
                      (i, j - run 0 h - run 1 h - run 2 h / 2 + 1)]
                else []
              else [])) /\
    (forall (i : Z) (candidates : list point),
        let st := scan_columns im i candidates in
        let s := fst st in
        let j := cols im - 1 in
        st = scan_prefix im i candidates (Z.to_nat (cols im)) /\
        scan_row im candidates i
        = snd st
          ++ (if checkRatio (counter1 s) (counter2 s) (counter3 s) (counter4 s)
                            (counter5 s) checkRatio_thresh
              then [(i, j + 1 - counter5 s - counter4 s - counter3 s / 2);
                    (i, j + 1 - counter5 s - counter4 s - counter3 s / 2 + 1)]
              else [])) /\
    getCandidates im = fold_left (scan_row im) (range (rows im)) [].
Proof.
  intros im. split; [|split].
  - intros i candidates n j h. split; [apply scan_prefix_counters|].
    split; [|apply scan_prefix_emits].
    intros Hblack. unfold counters_of. now rewrite Hblack.
  - intros i candidates st s j. split; reflexivity.
  - reflexivity.
Qed.

(** C6 in the row B W BBB W B W, whose first seven pixels end in a black
    run: the counters are the five runs 1, 1, 3, 1, 1. *)
Lemma getCandidates_spec_witness :
  counters_of (row_history
                 (image_of [[false; true; false; false; false; true; false;
                             true]]) 0 7)
  = mkScan 1 1 3 1 1 false.
Proof.
  apply (proj1 (proj2 (proj1 (getCandidates_spec
           (image_of [[false; true; false; false; false; true; false; true]]))
           0 [] 7%nat))).
  reflexivity.
Defined.

(** ** The binarizer *)

(** The maximum of an array of booleans is 0 or 1. *)
Lemma amax_bools (bs : list bool) :
  forall m : Q,
    m = 0%Q \/ m = 1%Q ->
    let r := fold_left (fun m x => greater x m) (map b2q bs) m in
    r = 0%Q \/ r = 1%Q.
Proof.
  induction bs as [|b bs IH]; intros m Hm; simpl; [exact Hm|].
  apply IH. destruct Hm as [-> | ->], b; simpl; auto.
Qed.

Lemma threshold_bools (cells : list (list bool)) :
  map (map (fun v => Qltb (1 # 2) v)) (map (map b2q) cells) = cells.
Proof.
  rewrite map_map. rewrite <- (map_id cells) at 2.
  apply map_ext. intros row. rewrite map_map. rewrite <- (map_id row) at 2.
  apply map_ext. intros []; reflexivity.
Qed.

(** C7, as stated, fails on the boolean grids without cells: [np.amax] has
    no value there and the step raises instead of returning the grid. *)
Lemma binarize_empty_counterexample :
  binarize (BoolArray (Grid2 [])) = None /\
  binarize (BoolArray (Grid2 [])) <> Some [] /\
  binarize (BoolArray (Grid2 [[]; []])) = None.
Proof.
  repeat split; try reflexivity. discriminate.
Qed.

(** C7, amended. On every 2-D boolean grid with at least one cell the
    binarization step (divide by 255 only if the maximum exceeds 1, take the
    first channel only if 3-D, threshold strictly above 0.5) returns the
    same grid. *)
Theorem binarize_idempotent :
  forall cells : list (list bool),
    concat cells <> [] ->
    binarize (BoolArray (Grid2 cells)) = Some cells.
Proof.
  intros cells Hcells. unfold binarize, amax. simpl flatten.
  rewrite <- concat_map.
  destruct (concat cells) as [|b bs]; [congruence|]. simpl map.
  assert (Hmax : Qltb 1 (fold_left (fun m x => greater x m) (map b2q bs) (b2q b))
                 = false).
  { destruct (amax_bools bs (b2q b)) as [-> | ->]; try reflexivity.
    destruct b; auto. }
  cbv iota. rewrite Hmax.
  cbn [take_first_channel threshold values grid_map].
  now rewrite threshold_bools.
Qed.

(** C7 on a 2 x 2 boolean grid. *)
Lemma binarize_idempotent_witness :
  binarize (BoolArray (Grid2 [[true; false]; [false; true]]))
  = Some [[true; false]; [false; true]].
Proof.
  apply (binarize_idempotent [[true; false]; [false; true]]). discriminate.
Defined.

(** ** decode *)



(** ** The whole routine on the 21 x 21 symbol *)

(** The three finder centers and the alignment estimate, as (x, y): the
    corners of a square of side 14. *)
Example getCornerPoints_symbol21 :
  getCandidates (image_of symbol21)
  = [(2, 4); (2, 5); (2, 18); (2, 19); (3, 4); (3, 5); (3, 18); (3, 19);
     (4, 4); (4, 5); (4, 18); (4, 19); (16, 4); (16, 5); (17, 4); (17, 5);
     (18, 4); (18, 5)] /\
  getCornerPoints (BoolArray (Grid2 symbol21))
  = Some [mkPoint 4 2; mkPoint 18 2; mkPoint 4 16; mkPoint 18 16].
Proof. split; vm_compute; reflexivity. Qed.

(* ===================================================================== *)
(** * Further properties *)

(** ** What neighborSuppression keeps *)

(** Induction along the forward scan. *)
Lemma suppress_scan_ind (thresh : Q) (P : list point -> Prop) :
  P [] ->
  (forall c rest,
      P (filter (fun c2 => negb (near thresh c c2)) rest) -> P (c :: rest)) ->
  forall l, P l.
Proof.
  intros Hnil Hcons l.
  assert (H : forall n l, (length l <= n)%nat -> P l).
  { clear l. induction n as [|n IH]; intros [|c rest] Hlen; simpl in Hlen;
      try exact Hnil; try lia.
    apply Hcons, IH.
    pose proof (filter_length_le (fun c2 => negb (near thresh c c2)) rest).
    lia. }
  apply (H (length l)). lia.
Qed.

Lemma subseq_filter {A : Type} (f : A -> bool) (l : list A) :
  subseq (filter f l) l.
Proof.
  induction l as [|a l IH]; simpl; [constructor|].
  destruct (f a); now constructor.
Qed.

Lemma subseq_trans {A : Type} (l1 l2 l3 : list A) :
  subseq l1 l2 -> subseq l2 l3 -> subseq l1 l3.
Proof.
  intros H12 H23. revert l1 H12.
  induction H23 as [|a s l H IH|a s l H IH]; intros l1 H12.
  - exact H12.
  - inversion H12; subst; constructor; auto.
  - constructor. auto.
Qed.

Lemma subseq_In {A : Type} (s l : list A) (x : A) :
  subseq s l -> In x s -> In x l.
Proof.
  induction 1 as [|a s l H IH|a s l H IH]; simpl; intuition.
Qed.

Lemma subseq_length {A : Type} (s l : list A) :
  subseq s l -> (length s <= length l)%nat.
Proof.
  induction 1; simpl; lia.
Qed.

Lemma suppress_subseq (thresh : Q) (l : list point) :
  subseq (suppress thresh l) l.
Proof.
  induction l as [|c rest IH] using (suppress_scan_ind thresh).
  - rewrite suppress_nil. constructor.
  - rewrite suppress_cons. constructor.
    eapply subseq_trans; [exact IH | apply subseq_filter].
Qed.

(** The survivors are pairwise not near each other, earlier against later. *)
Lemma suppress_separated (thresh : Q) (l : list point) :
  ForallOrdPairs (fun a b => near thresh a b = false) (suppress thresh l).
Proof.
  induction l as [|c rest IH] using (suppress_scan_ind thresh).
  - rewrite suppress_nil. constructor.
  - rewrite suppress_cons. constructor; [|exact IH].
    apply Forall_forall. intros b Hb.
    apply (subseq_In _ _ _ (suppress_subseq thresh _)) in Hb.
    apply filter_In in Hb. destruct Hb as [_ Hb].
    now apply negb_true_iff in Hb.
Qed.

(** X1. The result is the input with points left out, in the input order;
    a non-empty input keeps its first point. *)
Theorem neighborSuppression_subseq :
  forall (centers : list point) (thresh : Q),
  exists kept : list point,
    neighborSuppression centers thresh = Some kept /\
    subseq kept centers /\
    (length kept <= length centers)%nat /\
    hd_error kept = hd_error centers.
Proof.
  intros centers thresh. exists (suppress thresh centers).
  split; [apply neighborSuppression_suppress|].
  split; [apply suppress_subseq|].
  split; [apply subseq_length, suppress_subseq|].
  destruct centers; [now rewrite suppress_nil | now rewrite suppress_cons].
Qed.

(** X2. No two points of the result are within the threshold: for every
    pair, the earlier against the later fails the test of line 200. *)
Theorem neighborSuppression_separated :
  forall (centers : list point) (thresh : Q),
  exists kept : list point,
    neighborSuppression centers thresh = Some kept /\
    ForallOrdPairs (fun a b => near thresh a b = false) kept.
Proof.
  intros centers thresh. exists (suppress thresh centers).
  split; [apply neighborSuppression_suppress | apply suppress_separated].
Qed.

(** X3. Every input point is in the result or within the threshold of a
    point of the result. *)
Theorem neighborSuppression_covers :
  forall (centers : list point) (thresh : Q) (p : point),
    In p centers ->
    exists kept q,
      neighborSuppression centers thresh = Some kept /\
      In q kept /\ (q = p \/ near thresh q p = true).
Proof.
  intros centers thresh p Hp. exists (suppress thresh centers).
  rewrite neighborSuppression_suppress.
  enough (H : exists q, In q (suppress thresh centers) /\
                        (q = p \/ near thresh q p = true)).
  { destruct H as (q & Hq & Hnear). exists q. auto. }
  revert Hp.
  induction centers as [|c rest IH] using (suppress_scan_ind thresh);
    intros Hp; [destruct Hp|].
  rewrite suppress_cons. destruct Hp as [-> | Hp].
  - exists p. simpl. auto.
  - destruct (near thresh c p) eqn:Hnear.
    + exists c. simpl. auto.
    + destruct IH as (q & Hq & Hqp).
      * apply filter_In. split; [exact Hp | now rewrite Hnear].
      * exists q. simpl. auto.
Qed.

Lemma neighborSuppression_covers_witness :
  exists kept q,
    neighborSuppression [(0, 0); (1, 1); (20, 20)] 10 = Some kept /\
    In q kept /\ (q = (1, 1) \/ near 10 q (1, 1) = true).
Proof.
  apply (neighborSuppression_covers [(0, 0); (1, 1); (20, 20)] 10%Q (1, 1)).
  simpl. auto.
Defined.

(** X4. Running the suppression on its own result changes nothing. *)
Theorem neighborSuppression_idempotent :
  forall (centers : list point) (thresh : Q),
  exists kept : list point,
    neighborSuppression centers thresh = Some kept /\
    neighborSuppression kept thresh = Some kept.
Proof.
  intros centers thresh. exists (suppress thresh centers).
  rewrite !neighborSuppression_suppress. split; [reflexivity|].
  now rewrite suppress_scattered by apply suppress_separated.
Qed.

(** ** More on the two ratio tests *)







(** ** More on getAlignmentPoint *)

(** X9. Exchanging the second and the third center leaves the alignment
    point unchanged: only the first center plays a different part. *)
Theorem getAlignmentPoint_swap :
  forall (a b c : point) (later : list point),
    getAlignmentPoint (a :: c :: b :: later)
    = getAlignmentPoint (a :: b :: c :: later).
Proof.
  intros a b c later. unfold getAlignmentPoint. simpl. do 2 f_equal; lia.
Qed.

(** ** The candidates of getCandidates *)

Lemma runs_sum_nonneg (l : list Z) :
  Forall (fun r => 1 <= r) l -> 0 <= fold_right Z.add 0 l.
Proof.
  induction 1; simpl; lia.
Qed.

(** The runs of a scanned prefix are positive and add up to its length. *)
Lemma row_history_runs (im : image) (i : Z) (n : nat) :
  Forall (fun r => 1 <= r) (snd (row_history im i n)) /\
  fold_right Z.add 0 (snd (row_history im i n)) = Z.of_nat n.
Proof.
  induction n as [|n [IHpos IHsum]]; [split; [constructor | reflexivity]|].
  rewrite row_history_succ, Nat2Z.inj_succ. unfold run_step, run.
  destruct (Bool.eqb _ _); cbn [snd].
  - destruct (snd (row_history im i n)) as [|r rs];
      cbn [nth tl fold_right] in *.
    + split; [repeat constructor; lia | lia].
    + inversion IHpos; subst. split; [constructor; [lia | assumption] | lia].
  - split; [constructor; [lia | assumption] | cbn [fold_right]; lia].
Qed.

(** Three distinct runs among the last four fit in the scanned prefix. *)
Lemma runs_fit (h : history) (n : Z) :
  Forall (fun r => 1 <= r) (snd h) ->
  fold_right Z.add 0 (snd h) = n ->
  run 0 h + run 1 h + run 2 h <= n /\
  run 0 h + run 1 h + run 3 h <= n /\
  0 <= run 0 h /\ 0 <= run 1 h /\ 0 <= run 2 h /\ 0 <= run 3 h /\
  (snd h <> [] -> 1 <= run 0 h).
Proof.
  unfold run. intros Hpos Hsum.
  destruct (snd h) as [|r0 [|r1 [|r2 [|r3 rs]]]]; simpl in *;
    repeat match goal with
           | H : Forall _ (_ :: _) |- _ => inversion H; clear H; subst
           end;
    try (pose proof (runs_sum_nonneg rs ltac:(assumption)));
    repeat split; try lia; try congruence.
Qed.

Lemma half_bounds (x : Z) : 0 <= x -> 0 <= x / 2 <= x.
Proof.
  intros H. split; [apply Z.div_pos; lia | apply Z.div_le_upper_bound; lia].
Qed.

Lemma half_positive (x : Z) : 2 <= x -> 1 <= x / 2.
Proof.
  intros H. apply Z.div_le_lower_bound; lia.
Qed.

(** A check that passes on the counters of a history: the history is not
    empty and the run in counter 3 has at least two pixels. *)
Lemma check_scan_history (h : history) :
  check_scan (counters_of h) = true ->
  snd h <> [] /\ 2 <= counter3 (counters_of h).
Proof.
  unfold check_scan. intros H. apply checkRatio_default_Z in H. split.
  - intros Hnil. unfold counters_of, run in H. rewrite Hnil in H.
    destruct (fst h); simpl in H; lia.
  - lia.
Qed.

(** The candidates of a passed check lie in the scanned prefix, whose
    length is the column base. *)
Lemma emitted_in_prefix (im : image) (i : Z) (n : nat) :
  let s := counters_of (row_history im i n) in
  check_scan s = true ->
  0 <= center_col (Z.of_nat n) s /\ center_col (Z.of_nat n) s + 1 < Z.of_nat n.
Proof.
  intros s Hcheck.
  destruct (check_scan_history _ Hcheck) as [Hne H3]. fold s in H3.
  destruct (row_history_runs im i n) as [Hpos Hsum].
  destruct (runs_fit _ _ Hpos Hsum) as (H012 & H013 & H0 & H1 & H2 & H3' & Hrun0).
  specialize (Hrun0 Hne).
  pose proof (half_positive _ H3). pose proof (half_bounds (counter3 s)).
  unfold center_col. subst s. unfold counters_of in *.
  destruct (fst (row_history im i n)); cbn [counter3 counter4 counter5] in *;
    lia.
Qed.

(** What a check on the counters of a prefix appends: nothing, or a center
    and its right neighbour, both inside the prefix. *)
Lemma emitted_centers (im : image) (i : Z) (n : nat) :
  exists cs : list point,
    emitted i (Z.of_nat n) (counters_of (row_history im i n))
    = flat_map (fun p => [p; (fst p, snd p + 1)]) cs /\
    Forall (fun p => fst p = i /\ 0 <= snd p /\ snd p + 1 < Z.of_nat n) cs.
Proof.
  unfold emitted.
  destruct (check_scan (counters_of (row_history im i n))) eqn:Hcheck.
  - exists [(i, center_col (Z.of_nat n) (counters_of (row_history im i n)))].
    split; [reflexivity|]. constructor; [|constructor].
    pose proof (emitted_in_prefix im i n Hcheck). simpl. lia.
  - exists []. split; [reflexivity | constructor].
Qed.

(** The inner loop only appends, and what it appends are centers with
    their right neighbours, inside the scanned prefix. *)
Lemma scan_prefix_centers (im : image) (i : Z) (candidates : list point)
      (n : nat) :
  exists cs : list point,
    snd (scan_prefix im i candidates n)
    = candidates ++ flat_map (fun p => [p; (fst p, snd p + 1)]) cs /\
    Forall (fun p => fst p = i /\ 0 <= snd p /\ snd p + 1 < Z.of_nat n) cs.
Proof.
  induction n as [|n (cs & Hcs & Hin)].
  - exists []. split; [simpl; now rewrite app_nil_r | constructor].
  - rewrite scan_prefix_succ. unfold scan_pixel. cbn [snd].
    rewrite Hcs, scan_prefix_counters.
    assert (Hold : Forall (fun p => fst p = i /\ 0 <= snd p /\
                                    snd p + 1 < Z.of_nat (S n)) cs).
    { eapply Forall_impl; [|exact Hin]. simpl. intros p Hp. lia. }
    unfold scan_emits.
    destruct (getitem im i (Z.of_nat n));
      [destruct (prev (counters_of (row_history im i n)))|];
      try (exists cs; split; [now rewrite app_nil_r | exact Hold]).
    destruct (emitted_centers im i n) as (new & Hnew & Hnewin).
    exists (cs ++ new). rewrite Hnew, flat_map_app, app_assoc.
    split; [reflexivity|]. apply Forall_app. split; [exact Hold|].
    eapply Forall_impl; [|exact Hnewin]. simpl. intros p Hp. lia.
Qed.

(** A row only appends, and what it appends are centers of that row with
    their right neighbours, inside the row. *)
Lemma scan_row_centers (im : image) (candidates : list point) (i : Z) :
  exists cs : list point,
    scan_row im candidates i
    = candidates ++ flat_map (fun p => [p; (fst p, snd p + 1)]) cs /\
    Forall (fun p => fst p = i /\ 0 <= snd p /\ snd p + 1 < cols im) cs.
Proof.
  unfold scan_row.
  destruct (Z.le_gt_cases (cols im) 0) as [Hempty | Hcols].
  - rewrite right_edge_never_reads_unbound_j by exact Hempty.
    unfold scan_columns, range. replace (Z.to_nat (cols im)) with O by lia.
    exists []. split; [reflexivity | constructor].
  - unfold scan_columns. rewrite range_columns.
    fold (scan_prefix im i candidates (Z.to_nat (cols im))).
    destruct (scan_prefix_centers im i candidates (Z.to_nat (cols im)))
      as (cs & Hcs & Hin).
    rewrite Hcs, scan_prefix_counters.
    replace (cols im - 1 + 1) with (Z.of_nat (Z.to_nat (cols im))) by lia.
    destruct (emitted_centers im i (Z.to_nat (cols im)))
      as (new & Hnew & Hnewin).
    rewrite Hnew, <- app_assoc, <- flat_map_app.
    exists (cs ++ new). split; [reflexivity|].
    apply Forall_app. split; (eapply Forall_impl; [|eassumption]);
      simpl; intros p Hp; lia.
Qed.

Lemma sorted_append {A : Type} (R : A -> A -> Prop) (l1 l2 : list A) :
  StronglySorted R l1 -> StronglySorted R l2 ->
  (forall a b, In a l1 -> In b l2 -> R a b) ->
  StronglySorted R (l1 ++ l2).
Proof.
  intros H1 H2 H12. induction H1 as [|a l1 H1 IH Ha]; simpl; [exact H2|].
  constructor.
  - apply IH. intros x y Hx. apply H12. now right.
  - apply Forall_app. split; [exact Ha|].
    apply Forall_forall. intros b Hb. apply H12; [now left | exact Hb].
Qed.

Lemma same_row_sorted (i : Z) (cs : list point) :
  Forall (fun p => fst p = i) cs ->
  StronglySorted (fun p q => fst p <= fst q) cs.
Proof.
  induction 1 as [|p cs Hp Hcs IH]; constructor; [exact IH|].
  eapply Forall_impl; [|exact Hcs]. simpl. intros q Hq. lia.
Qed.

(** The outer loop over the first [k] rows. *)
Lemma scan_rows_centers (im : image) (k : nat) :
  exists centers : list point,
    fold_left (scan_row im) (columns k) []
    = flat_map (fun p => [p; (fst p, snd p + 1)]) centers /\
    Forall (fun p => 0 <= fst p < Z.of_nat k /\
                     0 <= snd p /\ snd p + 1 < cols im) centers /\
    StronglySorted (fun p q => fst p <= fst q) centers.
Proof.
  induction k as [|k (centers & Hfold & Hin & Hsorted)].
  - exists []. repeat split; constructor.
  - rewrite columns_succ, fold_left_app, Hfold. cbn [fold_left].
    destruct (scan_row_centers
                im (flat_map (fun p => [p; (fst p, snd p + 1)]) centers)
                (Z.of_nat k)) as (cs & Hrow & Hcs).
    exists (centers ++ cs). rewrite Hrow, flat_map_app.
    split; [reflexivity|]. split.
    + apply Forall_app. split; (eapply Forall_impl; [|eassumption]);
        simpl; intros p Hp; lia.
    + apply sorted_append; [exact Hsorted | |].
      * apply (same_row_sorted (Z.of_nat k)).
        eapply Forall_impl; [|exact Hcs]. simpl. tauto.
      * intros a b Ha Hb. rewrite Forall_forall in Hin, Hcs.
        specialize (Hin a Ha). specialize (Hcs b Hb). lia.
Qed.

Lemma getCandidates_centers (im : image) :
  exists centers : list point,
    getCandidates im = flat_map (fun p => [p; (fst p, snd p + 1)]) centers /\
    Forall (fun p => 0 <= fst p < rows im /\
                     0 <= snd p /\ snd p + 1 < cols im) centers /\
    StronglySorted (fun p q => fst p <= fst q) centers.
Proof.
  unfold getCandidates. rewrite range_columns.
  destruct (scan_rows_centers im (Z.to_nat (rows im)))
    as (centers & Hfold & Hin & Hsorted).
  exists centers. split; [exact Hfold|]. split; [|exact Hsorted].
  eapply Forall_impl; [|exact Hin]. simpl. intros p Hp. lia.
Qed.

(** A center with room for its right neighbour, and that neighbour, are
    inside the image. *)
Lemma pairs_inside (im : image) (centers : list point) :
  Forall (fun p => 0 <= fst p < rows im /\
                   0 <= snd p /\ snd p + 1 < cols im) centers ->
  Forall (fun p => in_bounds im (fst p) (snd p) = true)
         (flat_map (fun p => [p; (fst p, snd p + 1)]) centers).
Proof.
  intros Hin. apply Forall_flat_map. eapply Forall_impl; [|exact Hin].
  intros p Hp. unfold in_bounds. simpl in Hp.
  constructor; [|constructor; [|constructor]]; simpl;
    rewrite !andb_true_iff, !Z.leb_le, !Z.ltb_lt; lia.
Qed.

(** X10. Every candidate of [getCandidates] is a location inside the image. *)
Theorem getCandidates_in_bounds :
  forall im : image,
    Forall (fun p => in_bounds im (fst p) (snd p) = true) (getCandidates im).
Proof.
  intros im. destruct (getCandidates_centers im) as (centers & -> & Hin & _).
  now apply pairs_inside.
Qed.

(** X11. The candidates come in pairs, a column and the next one in the same
    row, and row by row from the top: no candidate is in a row above that
    of an earlier candidate. *)
Theorem getCandidates_row_order :
  forall im : image,
    StronglySorted (fun p q => fst p <= fst q) (getCandidates im) /\
    exists centers : list point,
      getCandidates im = flat_map (fun p => [p; (fst p, snd p + 1)]) centers.
Proof.
  intros im. destruct (getCandidates_centers im) as (centers & -> & _ & Hs).
  split; [|now exists centers].
  induction Hs as [|p centers Hs IH Hp]; simpl; [constructor|].
  assert (Hrest : Forall (fun q => fst p <= fst q)
                         (flat_map (fun p => [p; (fst p, snd p + 1)]) centers)).
  { apply Forall_flat_map. eapply Forall_impl; [|exact Hp].
    intros q Hq. simpl in Hq.
    constructor; [|constructor; [|constructor]]; simpl; lia. }
  constructor; [constructor; [exact IH | exact Hrest]|].
  constructor; [simpl; lia | exact Hrest].
Qed.

(** ** Images of one colour *)

(** While every pixel read has one colour the prefix has at most one run. *)
Lemma uniform_history (im : image) (colour : bool) (i : Z) (n : nat) :
  (forall j, (j < n)%nat -> getitem im i (Z.of_nat j) = colour) ->
  (length (snd (row_history im i n)) <= 1)%nat /\
  (snd (row_history im i n) <> [] -> fst (row_history im i n) = colour).
Proof.
  induction n as [|n IH]; intros Hpix; [split; [simpl; lia | now simpl]|].
  destruct IH as [Hlen Hcol]; [intros j Hj; apply Hpix; lia|].
  rewrite row_history_succ, (Hpix n) by lia. unfold run_step, run.
  destruct (snd (row_history im i n)) as [|r [|r' rs]];
    simpl in Hlen; try lia.
  - destruct (Bool.eqb colour (fst (row_history im i n))) eqn:Heq;
      cbn [fst snd tl length]; split; try lia; auto.
    intros _. now apply eqb_prop in Heq.
  - rewrite Hcol by discriminate. rewrite eqb_reflx.
    cbn [fst snd tl length]. split; [lia | auto].
Qed.

(** With at most one run the ratio check fails. *)
Lemma check_scan_one_run (h : history) :
  (length (snd h) <= 1)%nat -> check_scan (counters_of h) = false.
Proof.
  intros Hlen. apply not_true_iff_false. intros Hcheck.
  destruct (check_scan_history h Hcheck) as [_ H3].
  unfold counters_of, run in H3.
  destruct (snd h) as [|r [|r' rs]]; simpl in Hlen; try lia;
    destruct (fst h); simpl in H3; lia.
Qed.

Lemma emitted_one_run (i j : Z) (h : history) :
  (length (snd h) <= 1)%nat -> emitted i j (counters_of h) = [].
Proof.
  intros Hlen. unfold emitted. now rewrite check_scan_one_run.
Qed.

Lemma uniform_scan_prefix (im : image) (colour : bool) (i : Z)
      (candidates : list point) (n : nat) :
  (forall j, (j < n)%nat -> getitem im i (Z.of_nat j) = colour) ->
  snd (scan_prefix im i candidates n) = candidates.
Proof.
  induction n as [|n IH]; intros Hpix; [reflexivity|].
  rewrite scan_prefix_succ. unfold scan_pixel. cbn [snd].
  rewrite IH by (intros j Hj; apply Hpix; lia).
  rewrite scan_prefix_counters. unfold scan_emits.
  rewrite emitted_one_run.
  - destruct (getitem im i (Z.of_nat n));
      [destruct (prev (counters_of (row_history im i n)))|]; apply app_nil_r.
  - apply (uniform_history im colour). intros j Hj. apply Hpix. lia.
Qed.

Lemma uniform_scan_row (im : image) (colour : bool) (i : Z)
      (candidates : list point) :
  (forall j, in_bounds im i j = true -> getitem im i j = colour) ->
  0 <= i < rows im ->
  scan_row im candidates i = candidates.
Proof.
  intros Hpix Hi. unfold scan_row, scan_columns. rewrite range_columns.
  fold (scan_prefix im i candidates (Z.to_nat (cols im))).
  assert (Hread : forall j, (j < Z.to_nat (cols im))%nat ->
                            getitem im i (Z.of_nat j) = colour).
  { intros j Hj. apply Hpix. unfold in_bounds.
    rewrite !andb_true_iff, !Z.leb_le, !Z.ltb_lt. lia. }
  rewrite (uniform_scan_prefix im colour) by exact Hread.
  rewrite scan_prefix_counters, emitted_one_run; [apply app_nil_r|].
  now apply (uniform_history im colour).
Qed.

(** X12. An image whose pixels all have one colour, white or black, has no
    candidate. *)
Theorem getCandidates_uniform :
  forall (im : image) (colour : bool),
    (forall i j, in_bounds im i j = true -> getitem im i j = colour) ->
    getCandidates im = [].
Proof.
  intros im colour Hpix. unfold getCandidates. rewrite range_columns.
  assert (H : forall k, (k <= Z.to_nat (rows im))%nat ->
                        fold_left (scan_row im) (columns k) [] = []).
  { induction k as [|k IH]; intros Hk; [reflexivity|].
    rewrite columns_succ, fold_left_app, IH by lia. cbn [fold_left].
    apply (uniform_scan_row im colour); [|lia].
    intros j. apply Hpix. }
  now apply H.
Qed.

Lemma getCandidates_uniform_witness :
  getCandidates (image_of [[true; true]; [true; true]]) = [].
Proof.
  apply (getCandidates_uniform (image_of [[true; true]; [true; true]]) true).
  intros i j Hin. unfold in_bounds in Hin. simpl in Hin.
  rewrite !andb_true_iff, !Z.leb_le, !Z.ltb_lt in Hin.
  assert (Hi : i = 0 \/ i = 1) by lia. assert (Hj : j = 0 \/ j = 1) by lia.
  destruct Hi as [-> | ->], Hj as [-> | ->]; reflexivity.
Defined.

(** ** The whole routine *)

Lemma getAlignmentPoint_three (centers : list point) (pt : point) :
  getAlignmentPoint centers = Some pt ->
  exists a b c later,
    centers = a :: b :: c :: later /\
    pt = (fst b + fst c - fst a, snd b + snd c - snd a).
Proof.
  destruct centers as [|a [|b [|c later]]]; try discriminate.
  unfold getAlignmentPoint. simpl. intros [= <-].
  exists a, b, c, later. split; [reflexivity|]. f_equal; lia.
Qed.

(** X21. When [getCornerPoints] returns, it returns at least four points, in
    (x, y) form: the surviving centers, of which there are at least three,
    and last the point that completes the parallelogram of the first
    three. *)
Theorem getCornerPoints_shape :
  forall (img : ndarray) (points : list Point),
    getCornerPoints img = Some points ->
    exists (a b c : Point) (later : list Point),
      points
      = a :: b :: c :: later
        ++ [mkPoint (Point_x b + Point_x c - Point_x a)
                    (Point_y b + Point_y c - Point_y a)] /\
      (4 <= length points)%nat.
Proof.
  intros img points. unfold getCornerPoints.
  destruct (binarize img) as [cells|]; [|discriminate].
  destruct (verified _ _) as [centers0|]; [|discriminate].
  destruct (neighborSuppression _ _) as [centers|]; [|discriminate].
  destruct (getAlignmentPoint centers) as [pt|] eqn:Hpt; [|discriminate].
  intros [= <-].
  apply getAlignmentPoint_three in Hpt.
  destruct Hpt as (a & b & c & later & -> & ->).
  exists (mkPoint (snd a) (fst a)), (mkPoint (snd b) (fst b)),
         (mkPoint (snd c) (fst c)),
         (map (fun c => mkPoint (snd c) (fst c)) later).
  split.
  - simpl. now rewrite map_app.
  - simpl. rewrite length_map, length_app. simpl. lia.
Qed.

Lemma getCornerPoints_shape_witness :
  exists (a b c : Point) (later : list Point),
    [mkPoint 4 2; mkPoint 18 2; mkPoint 4 16; mkPoint 18 16]
    = a :: b :: c :: later
      ++ [mkPoint (Point_x b + Point_x c - Point_x a)
                  (Point_y b + Point_y c - Point_y a)] /\
    (4 <= length [mkPoint 4 2; mkPoint 18 2; mkPoint 4 16; mkPoint 18 16])%nat.
Proof.
  apply (getCornerPoints_shape (BoolArray (Grid2 symbol21))).
  vm_compute. reflexivity.
Defined.

(** ** What a walk measures *)

Ltac triple_eq :=
  rewrite ?Nat2Z.inj_succ;
  repeat match goal with |- (_, _) = (_, _) => f_equal end;
  lia.

(** In the second black run the walk counts black pixels into counter 3. *)
Lemma walk_runs_phase2 (im : image) (dx dy : Z) (fuel : nat) :
  forall c1 c2 c3 i j r,
    walk_runs fuel im dx dy 2 c1 c2 c3 i j = Some r ->
    r = (c1, c2, c3 + Z.of_nat (leading false (ray fuel im dx dy i j))).
Proof.
  induction fuel as [|fuel IH]; intros c1 c2 c3 i j r;
    cbn [walk_runs ray]; [discriminate|].
  destruct (in_bounds im i j); [destruct (getitem im i j)|];
    cbn [leading Bool.eqb]; change (2 <? 2) with false; cbv iota.
  - intros [= <-]. triple_eq.
  - change (2 =? 0) with false. cbv iota.
    intros H. apply IH in H. rewrite H. triple_eq.
  - intros [= <-]. triple_eq.
Qed.

(** In the white run it counts white pixels into counter 2, then goes on
    with the second black run. *)
Lemma walk_runs_phase1 (im : image) (dx dy : Z) (fuel : nat) :
  forall c1 c2 c3 i j r,
    walk_runs fuel im dx dy 1 c1 c2 c3 i j = Some r ->
    let l := ray fuel im dx dy i j in
    r = (c1, c2 + Z.of_nat (leading true l),
         c3 + Z.of_nat (leading false (skipn (leading true l) l))).
Proof.
  induction fuel as [|fuel IH]; intros c1 c2 c3 i j r;
    cbn [walk_runs ray]; [discriminate|].
  destruct (in_bounds im i j); [destruct (getitem im i j)|];
    cbn [leading Bool.eqb skipn]; change (1 <? 2) with true;
    change (1 =? 0) with false; cbv iota.
  - intros H. apply IH in H. cbv zeta in H. rewrite H. triple_eq.
  - intros H. apply walk_runs_phase2 in H. rewrite H. triple_eq.
  - intros [= <-]. triple_eq.
Qed.

(** From its start it counts black pixels into counter 1, then goes on with
    the white run. *)
Lemma walk_runs_phase0 (im : image) (dx dy : Z) (fuel : nat) :
  forall c1 c2 c3 i j r,
    walk_runs fuel im dx dy 0 c1 c2 c3 i j = Some r ->
    let l := ray fuel im dx dy i j in
    let l1 := skipn (leading false l) l in
    r = (c1 + Z.of_nat (leading false l),
         c2 + Z.of_nat (leading true l1),
         c3 + Z.of_nat (leading false (skipn (leading true l1) l1))).
Proof.
  induction fuel as [|fuel IH]; intros c1 c2 c3 i j r;
    cbn [walk_runs ray]; [discriminate|].
  destruct (in_bounds im i j); [destruct (getitem im i j)|];
    cbn [leading Bool.eqb skipn]; change (0 <? 2) with true;
    change (0 =? 0) with true; cbv iota.
  - intros H. apply walk_runs_phase1 in H. cbv zeta in H. rewrite H.
    triple_eq.
  - intros H. apply IH in H. cbv zeta in H. rewrite H. triple_eq.
  - intros [= <-]. triple_eq.
Qed.

(** With a vertical step the ray is whole: it has left the array within
    the fuel of [verifyDirection], and more fuel does not lengthen it. *)
Lemma ray_whole_down (im : image) (dx dy : Z) :
  0 < dy ->
  forall fuel fuel' i j,
    (Z.to_nat (rows im - Z.max i 0) < fuel)%nat ->
    (Z.to_nat (rows im - Z.max i 0) < fuel')%nat ->
    ray fuel im dx dy i j = ray fuel' im dx dy i j.
Proof.
  intros Hdy. induction fuel as [|fuel IH]; intros [|fuel'] i j H H';
    try lia.
  simpl. destruct (in_bounds im i j) eqn:Hin; [|reflexivity].
  apply in_bounds_rows in Hin. f_equal. apply IH; lia.
Qed.

Lemma ray_whole_up (im : image) (dx dy : Z) :
  dy < 0 ->
  forall fuel fuel' i j,
    (Z.to_nat (Z.min i (rows im - 1) + 1) < fuel)%nat ->
    (Z.to_nat (Z.min i (rows im - 1) + 1) < fuel')%nat ->
    ray fuel im dx dy i j = ray fuel' im dx dy i j.
Proof.
  intros Hdy. induction fuel as [|fuel IH]; intros [|fuel'] i j H H';
    try lia.
  simpl. destruct (in_bounds im i j) eqn:Hin; [|reflexivity].
  apply in_bounds_rows in Hin. f_equal. apply IH; lia.
Qed.

(** X13. A walk with a vertical step returns the lengths of the black run
    that starts at the location, of the white run after it and of the black
    run after that, along the pixels it crosses up to the border; the
    pixels after that second black run are not counted. *)
Theorem direction_runs_measures :
  forall (im : image) (loc : point) (dx dy : Z),
    dy <> 0 ->
    direction_runs im loc dx dy
    = Some (black_white_black
              (ray (walk_fuel im) im dx dy (fst loc) (snd loc))) /\
    (forall fuel : nat,
        (walk_fuel im <= fuel)%nat ->
        ray fuel im dx dy (fst loc) (snd loc)
        = ray (walk_fuel im) im dx dy (fst loc) (snd loc)).
Proof.
  intros im loc dx dy Hdy. split.
  - destruct (direction_runs_total im loc dx dy Hdy) as [r Hr].
    rewrite Hr. f_equal. unfold direction_runs in Hr.
    apply walk_runs_phase0 in Hr. cbv zeta in Hr. rewrite Hr.
    unfold black_white_black. triple_eq.
  - intros fuel Hfuel. unfold walk_fuel in *.
    destruct (Z.lt_ge_cases 0 dy).
    + apply ray_whole_down; lia.
    + apply ray_whole_up; lia.
Qed.

Lemma direction_runs_measures_witness :
  direction_runs (image_of [[false]; [false]; [true]; [false]; [true]])
                 (0, 0) 0 1
  = Some (2, 1, 1).
Proof.
  apply (proj1 (direction_runs_measures
                  (image_of [[false]; [false]; [true]; [false]; [true]])
                  (0, 0) 0 1 ltac:(discriminate))).
Defined.

(** A walk that does not move stays in its loop. *)
Lemma zero_step_loops (im : image) (i j : Z) (fuel : nat) :
  in_bounds im i j = true ->
  forall prev c1 c2 c3,
    getitem im i j = false \/ prev < 2 ->
    verifyDirection_loop fuel im 0 0 prev c1 c2 c3 i j = None.
Proof.
  intros Hin. induction fuel as [|fuel IH]; intros prev c1 c2 c3 H;
    [reflexivity|].
  simpl. rewrite Hin, !Z.add_0_r.
  destruct (getitem im i j) eqn:Hpix.
  - destruct H as [H | H]; [discriminate|].
    apply Z.ltb_lt in H. rewrite H. apply IH. right. lia.
  - destruct (prev =? 0); apply IH; now left.
Qed.

(** X14. With the step (0, 0) a walk from a location inside the image never
    returns: no number of iterations ends the loop. *)
Theorem verifyDirection_zero_step_diverges :
  forall (im : image) (loc : point) (fuel : nat),
    in_bounds im (fst loc) (snd loc) = true ->
    verifyDirection_loop fuel im 0 0 0 0 0 0 (fst loc) (snd loc) = None.
Proof.
  intros im loc fuel Hin. apply zero_step_loops; [exact Hin|]. right. lia.
Qed.

Lemma verifyDirection_zero_step_diverges_witness :
  verifyDirection_loop 1000 (image_of [[true; false]]) 0 0 0 0 0 0 0 1 = None.
Proof.
  apply (verifyDirection_zero_step_diverges (image_of [[true; false]]) (0, 1)
                                            1000).
  reflexivity.
Defined.

(** ** More on the binarizer *)

Lemma greater_exceeds (x m : Q) :
  (1 < greater x m)%Q <-> (1 < m)%Q \/ (1 < x)%Q.
Proof.
  unfold greater. destruct (Qltb m x) eqn:Hmx.
  - apply Qltb_lt in Hmx. split; [auto|].
    intros [H | H]; [eapply Qlt_trans; eassumption | exact H].
  - apply Qltb_ge in Hmx. split; [auto|].
    intros [H | H]; [exact H | eapply Qlt_le_trans; eassumption].
Qed.

(** The maximum exceeds 1 exactly when some value does. *)
Lemma fold_greater_exceeds (vs : list Q) :
  forall m : Q,
    (1 < fold_left (fun m x => greater x m) vs m)%Q
    <-> (1 < m)%Q \/ Exists (fun x => (1 < x)%Q) vs.
Proof.
  induction vs as [|v vs IH]; intros m; simpl.
  - split; [auto | intros [H | H]; [exact H | inversion H]].
  - rewrite IH, greater_exceeds, Exists_cons. tauto.
Qed.

Lemma amax_exceeds (a : ndarray) (m : Q) :
  amax a = Some m ->
  Qltb 1 m = true <-> Exists (fun x => (1 < x)%Q) (flatten (values a)).
Proof.
  unfold amax. destruct (flatten (values a)) as [|v vs]; [discriminate|].
  intros [= <-]. rewrite Qltb_lt, fold_greater_exceeds, Exists_cons.
  tauto.
Qed.

Lemma values_of_ints (cells : list (list Z)) :
  flatten (values (NumArray (Grid2 (map (map inject_Z) cells))))
  = map inject_Z (concat cells).
Proof.
  simpl. now rewrite concat_map.
Qed.

Lemma one_lt_int (v : Z) : (1 < inject_Z v)%Q <-> 1 < v.
Proof.
  unfold Qlt, inject_Z. simpl. lia.
Qed.

Lemma scaled_above_half (v : Z) :
  Qltb (1 # 2) (inject_Z v / 255) = (128 <=? v).
Proof.
  apply eq_true_iff_eq. rewrite Qltb_lt, Z.leb_le.
  unfold Qlt, Qdiv, Qmult, Qinv, inject_Z. simpl. lia.
Qed.

Lemma unscaled_above_half (v : Z) :
  Qltb (1 # 2) (inject_Z v) = (1 <=? v).
Proof.
  apply eq_true_iff_eq. rewrite Qltb_lt, Z.leb_le.
  unfold Qlt, inject_Z. simpl. lia.
Qed.

(** X15. On a 2-D grid of integers with a value above 1 (an 8-bit image that
    is not all dark) the binarizer divides by 255 and a pixel is white
    exactly when its value is at least 128. *)
Theorem binarize_8bit :
  forall cells : list (list Z),
    Exists (fun v => 1 < v) (concat cells) ->
    binarize (NumArray (Grid2 (map (map inject_Z) cells)))
    = Some (map (map (fun v => 128 <=? v)) cells).
Proof.
  intros cells Hbright. unfold binarize.
  destruct (amax (NumArray (Grid2 (map (map inject_Z) cells)))) as [m|] eqn:Hm.
  - assert (Hscale : Qltb 1 m = true).
    { apply (amax_exceeds _ _ Hm). rewrite values_of_ints.
      apply Exists_exists in Hbright. destruct Hbright as (v & Hv & Hgt).
      apply Exists_exists. exists (inject_Z v).
      split; [now apply in_map | now apply (proj2 (one_lt_int v))]. }
    rewrite Hscale.
    cbn [divide_255 take_first_channel threshold values grid_map].
    f_equal. rewrite !map_map. apply map_ext. intros row.
    rewrite !map_map. apply map_ext. intros v. apply scaled_above_half.
  - exfalso. unfold amax in Hm. rewrite values_of_ints in Hm.
    destruct (concat cells); [inversion Hbright | discriminate].
Qed.

Lemma binarize_8bit_witness :
  binarize (NumArray (Grid2 (map (map inject_Z) [[0; 127]; [128; 255]])))
  = Some [[false; false]; [true; true]].
Proof.
  apply (binarize_8bit [[0; 127]; [128; 255]]).
  simpl. apply Exists_cons_tl, Exists_cons_hd. lia.
Defined.

(** X16. On a non-empty 2-D grid of integers with no value above 1 the
    binarizer does not divide: a pixel is white exactly when its value is
    at least 1, so an 8-bit image whose brightest value is 1 keeps those
    pixels white. *)
Theorem binarize_unit_range :
  forall cells : list (list Z),
    concat cells <> [] ->
    Forall (fun v => v <= 1) (concat cells) ->
    binarize (NumArray (Grid2 (map (map inject_Z) cells)))
    = Some (map (map (fun v => 1 <=? v)) cells).
Proof.
  intros cells Hcells Hdark. unfold binarize.
  destruct (amax (NumArray (Grid2 (map (map inject_Z) cells)))) as [m|] eqn:Hm.
  - assert (Hscale : Qltb 1 m = false).
    { apply not_true_iff_false. intros H.
      apply (amax_exceeds _ _ Hm) in H. rewrite values_of_ints in H.
      apply Exists_exists in H. destruct H as (q & Hq & Hgt).
      apply in_map_iff in Hq. destruct Hq as (v & <- & Hv).
      apply (proj1 (one_lt_int v)) in Hgt. rewrite Forall_forall in Hdark.
      specialize (Hdark v Hv). simpl in Hdark. lia. }
    rewrite Hscale.
    cbn [take_first_channel threshold values grid_map].
    f_equal. rewrite !map_map. apply map_ext. intros row.
    rewrite !map_map. apply map_ext. intros v. apply unscaled_above_half.
  - exfalso. unfold amax in Hm. rewrite values_of_ints in Hm.
    destruct (concat cells); [congruence | discriminate].
Qed.

Lemma binarize_unit_range_witness :
  binarize (NumArray (Grid2 (map (map inject_Z) [[0; 1]; [1; 0]])))
  = Some [[false; true]; [true; false]].
Proof.
  apply (binarize_unit_range [[0; 1]; [1; 0]]).
  - discriminate.
  - repeat constructor; lia.
Defined.

Lemma threshold_extent (a : ndarray) (cells : list (list Q))
      (out : list (list bool)) :
  values a = Grid2 cells ->
  threshold a = Some out ->
  map (@length bool) out = map (@length Q) cells.
Proof.
  intros Hvalues. unfold threshold. rewrite Hvalues. intros [= <-].
  rewrite map_map. apply map_ext. intros row. apply length_map.
Qed.

Lemma take_first_channel_2d (a : ndarray) (cells : list (list Q)) :
  values a = Grid2 cells -> take_first_channel a = Some a.
Proof.
  destruct a as [[b|b] | [n|n]]; simpl; intros H;
    try discriminate; reflexivity.
Qed.

(** X17. The binarizer keeps the extent of a 2-D grid: as many rows, and in
    each row as many cells. *)
Theorem binarize_keeps_extent :
  forall (a : ndarray) (cells : list (list Q)) (out : list (list bool)),
    values a = Grid2 cells ->
    binarize a = Some out ->
    map (@length bool) out = map (@length Q) cells.
Proof.
  intros a cells out Hvalues. unfold binarize.
  destruct (amax a) as [m|]; [|discriminate].
  destruct (Qltb 1 m).
  - assert (Hscaled : values (divide_255 a)
                      = Grid2 (map (map (fun v => (v / 255)%Q)) cells)).
    { unfold divide_255. simpl. now rewrite Hvalues. }
    rewrite (take_first_channel_2d _ _ Hscaled). intros H.
    rewrite (threshold_extent _ _ _ Hscaled H), map_map.
    apply map_ext. intros row. apply length_map.
  - rewrite (take_first_channel_2d _ _ Hvalues). intros H.
    exact (threshold_extent _ _ _ Hvalues H).
Qed.

Lemma binarize_keeps_extent_witness :
  map (@length bool) [[true; false; true]] = map (@length Q) [[200; 3; 255]%Q].
Proof.
  apply (binarize_keeps_extent (NumArray (Grid2 [[200; 3; 255]%Q]))
                               [[200; 3; 255]%Q] [[true; false; true]]);
    reflexivity.
Defined.

(** ** decode past its guards *)











(** ** The centers that getCornerPoints returns *)

(** The loop over the candidates keeps, in order, those that
    [verifyCenter] accepts. *)
Lemma verified_accepted (im : image) (candidates centers : list point) :
  verified im candidates = Some centers ->
  subseq centers candidates /\
  Forall (fun c => verifyCenter im c = Some true) centers.
Proof.
  revert centers. induction candidates as [|c cs IH]; intros centers; simpl.
  - intros [= <-]. split; constructor.
  - destruct (verifyCenter im c) as [ok|] eqn:Hok; [|discriminate].
    destruct (verified im cs) as [rest|]; [|discriminate].
    destruct (IH rest eq_refl) as [Hsub Hall].
    intros [= <-]. destruct ok.
    + split; [now constructor | now constructor].
    + split; [now constructor | exact Hall].
Qed.

Lemma subseq_Forall {A : Type} (P : A -> Prop) (s l : list A) :
  subseq s l -> Forall P l -> Forall P s.
Proof.
  intros Hsub Hl. apply Forall_forall. intros x Hx.
  rewrite Forall_forall in Hl. apply Hl. eapply subseq_In; eassumption.
Qed.

(** X22. Every point that [getCornerPoints] returns, but for the last one,
    is a location (x, y) = (column, row) inside the binarized image at
    which [verifyCenter] succeeds. *)
Theorem getCornerPoints_centers_verified :
  forall (img : ndarray) (cells : list (list bool)) (points : list Point),
    binarize img = Some cells ->
    getCornerPoints img = Some points ->
    Forall (fun P =>
              in_bounds (image_of cells) (Point_y P) (Point_x P) = true /\
              verifyCenter (image_of cells) (Point_y P, Point_x P) = Some true)
           (removelast points).
Proof.
  intros img cells points Hbin. unfold getCornerPoints. rewrite Hbin.
  destruct (verified _ _) as [centers0|] eqn:Hver; [|discriminate].
  rewrite neighborSuppression_suppress.
  destruct (getAlignmentPoint _) as [pt|]; [|discriminate].
  intros [= <-]. rewrite map_app. simpl map. rewrite removelast_last.
  apply Forall_map. destruct (verified_accepted _ _ _ Hver) as [Hsub Hok].
  assert (Hsub' : subseq (suppress (of_int (rows (image_of cells)) / 5) centers0)
                         centers0) by apply suppress_subseq.
  apply Forall_forall. intros [r c] Hc. simpl. split.
  - assert (Hin : Forall (fun p => in_bounds (image_of cells) (fst p) (snd p)
                                   = true)
                         (getCandidates (image_of cells))).
    { destruct (getCandidates_centers (image_of cells))
        as (centers & -> & Hcenters & _).
      now apply pairs_inside. }
    apply (subseq_Forall _ _ _ Hsub) in Hin.
    apply (subseq_Forall _ _ _ Hsub') in Hin.
    rewrite Forall_forall in Hin. exact (Hin (r, c) Hc).
  - apply (subseq_Forall _ _ _ Hsub') in Hok.
    rewrite Forall_forall in Hok. exact (Hok (r, c) Hc).
Qed.

Lemma getCornerPoints_centers_verified_witness :
  Forall (fun P =>
            in_bounds (image_of symbol21) (Point_y P) (Point_x P) = true /\
            verifyCenter (image_of symbol21) (Point_y P, Point_x P) = Some true)
         (removelast [mkPoint 4 2; mkPoint 18 2; mkPoint 4 16; mkPoint 18 16]).
Proof.
  apply (getCornerPoints_centers_verified (BoolArray (Grid2 symbol21))
                                          symbol21).
  - vm_compute. reflexivity.
  - vm_compute. reflexivity.
Defined.

(** ** Finding a cross-section *)

Lemma firstn_succ_nth {A : Type} (d : A) (l : list A) (n : nat) :
  (n < length l)%nat -> firstn (S n) l = firstn n l ++ [nth n l d].
Proof.
  revert n. induction l as [|a l IH]; intros [|n] H; simpl in *; try lia.
  - reflexivity.
  - now rewrite IH by lia.
Qed.

(** The history of a prefix of a row is that of its pixels. *)
Lemma row_history_pixels (im : image) (i : nat) (row : list bool) (n : nat) :
  nth_error (pixels im) i = Some row ->
  (n <= length row)%nat ->
  row_history im (Z.of_nat i) n = fold_left run_step (firstn n row) history_start.
Proof.
  intros Hrow. induction n as [|n IH]; intros Hn; [reflexivity|].
  rewrite row_history_succ, IH by lia.
  rewrite (firstn_succ_nth false) by lia. rewrite fold_left_app. simpl.
  f_equal. unfold getitem. rewrite !Nat2Z.id.
  now rewrite (nth_error_nth _ _ _ Hrow).
Qed.

Lemma run_step_colour (h : history) (white : bool) :
  fst (run_step h white) = white.
Proof.
  unfold run_step. destruct (Bool.eqb white (fst h)) eqn:H; [|reflexivity].
  simpl. symmetry. now apply eqb_prop.
Qed.

(** More pixels of the colour of the latest run lengthen it. *)
Lemma run_step_same (colour : bool) (r : Z) (older : list Z) (k : nat) :
  fold_left run_step (repeat colour k) (colour, r :: older)
  = (colour, (r + Z.of_nat k) :: older).
Proof.
  revert r. induction k as [|k IH]; intros r; simpl repeat.
  - simpl. now rewrite Z.add_0_r.
  - cbn [fold_left]. unfold run_step at 2. cbn [fst snd].
    rewrite eqb_reflx. unfold run. cbn [snd nth tl]. rewrite IH.
    do 2 f_equal. lia.
Qed.

(** [k] pixels of the other colour open a run of length [k]. *)
Lemma run_step_new (h : history) (colour : bool) (k : nat) :
  fst h = negb colour -> (1 <= k)%nat ->
  fold_left run_step (repeat colour k) h = (colour, Z.of_nat k :: snd h).
Proof.
  intros Hcol Hk. destruct k as [|k]; [lia|]. simpl repeat. cbn [fold_left].
  unfold run_step at 2. rewrite Hcol.
  replace (Bool.eqb colour (negb colour)) with false
    by (destruct colour; reflexivity).
  rewrite run_step_same. do 2 f_equal. lia.
Qed.

(** After a cross-section that starts on a new black run the last five
    runs are those of the cross-section. *)
Lemma cross_section_history (h : history) (k : nat) :
  fst h = true -> (1 <= k)%nat ->
  fold_left run_step (cross_section k) h
  = (false,
     Z.of_nat k :: Z.of_nat k :: Z.of_nat (3 * k) :: Z.of_nat k :: Z.of_nat k
     :: snd h).
Proof.
  intros Hh Hk. unfold cross_section. rewrite !fold_left_app.
  rewrite (run_step_new h false k) by (simpl; first [assumption | lia]).
  set (h1 := (false, Z.of_nat k :: snd h)).
  rewrite (run_step_new h1 true k) by (simpl; first [reflexivity | lia]).
  set (h2 := (true, Z.of_nat k :: snd h1)).
  rewrite (run_step_new h2 false (3 * k)) by (simpl; first [reflexivity | lia]).
  set (h3 := (false, Z.of_nat (3 * k) :: snd h2)).
  rewrite (run_step_new h3 true k) by (simpl; first [reflexivity | lia]).
  set (h4 := (true, Z.of_nat k :: snd h3)).
  rewrite (run_step_new h4 false k) by (simpl; first [reflexivity | lia]).
  reflexivity.
Qed.

Lemma history_after_white (pre : list bool) :
  pre = [] \/ (exists pre', pre = pre' ++ [true]) ->
  fst (fold_left run_step pre history_start) = true.
Proof.
  intros [-> | (pre' & ->)]; [reflexivity|].
  rewrite fold_left_app. simpl. apply run_step_colour.
Qed.

(** The counters after the cross-section of a row. *)
Lemma cross_section_counters (im : image) (i : nat) (row pre post : list bool)
      (k : nat) :
  nth_error (pixels im) i = Some row ->
  row = pre ++ cross_section k ++ post ->
  (1 <= k)%nat ->
  pre = [] \/ (exists pre', pre = pre' ++ [true]) ->
  let n := (length pre + 7 * k)%nat in
  let s := counters_of (row_history im (Z.of_nat i) n) in
  s = mkScan (Z.of_nat k) (Z.of_nat k) (Z.of_nat (3 * k)) (Z.of_nat k)
             (Z.of_nat k) false /\
  check_scan s = true.
Proof.
  intros Hrow Hsplit Hk Hpre n s.
  assert (Hlen : length (cross_section k) = (7 * k)%nat).
  { unfold cross_section. rewrite !length_app, !repeat_length. lia. }
  assert (Hs : s = mkScan (Z.of_nat k) (Z.of_nat k) (Z.of_nat (3 * k))
                          (Z.of_nat k) (Z.of_nat k) false).
  { subst s n. rewrite (row_history_pixels im i row) by
        (try exact Hrow; rewrite Hsplit, !length_app, Hlen; lia).
    replace (firstn (length pre + 7 * k) row) with (pre ++ cross_section k).
    - rewrite fold_left_app, cross_section_history
        by (try apply history_after_white; assumption).
      reflexivity.
    - rewrite Hsplit, app_assoc, firstn_app.
      replace (length pre + 7 * k - length (pre ++ cross_section k))%nat
        with O by (rewrite length_app, Hlen; lia).
      rewrite firstn_all2 by (rewrite length_app, Hlen; lia).
      simpl. now rewrite app_nil_r. }
  split; [exact Hs|]. rewrite Hs. unfold check_scan. simpl.
  apply checkRatio_default_Z. lia.
Qed.

(** A row keeps the candidates it is given ... *)
Lemma scan_row_keeps (im : image) (candidates : list point) (i : Z)
      (p : point) :
  In p candidates -> In p (scan_row im candidates i).
Proof.
  intros Hp. destruct (scan_row_centers im candidates i) as (cs & -> & _).
  apply in_or_app. now left.
Qed.

(** ... and so does the rest of the inner loop. *)
Lemma scan_prefix_keeps (im : image) (i : Z) (candidates : list point)
      (p : point) (n m : nat) :
  (n <= m)%nat ->
  In p (snd (scan_prefix im i candidates n)) ->
  In p (snd (scan_prefix im i candidates m)).
Proof.
  intros Hnm Hp. induction m as [|m IH].
  - now replace n with O in Hp by lia.
  - destruct (Nat.eq_dec n (S m)) as [-> | Hne]; [exact Hp|].
    rewrite scan_prefix_succ. unfold scan_pixel. cbn [snd].
    apply in_or_app. left. apply IH. lia.
Qed.

(** What row [i] appends whatever it is given is in the result. *)
Lemma getCandidates_of_row (im : image) (i : nat) (p : point) :
  Z.of_nat i < rows im ->
  (forall candidates, In p (scan_row im candidates (Z.of_nat i))) ->
  In p (getCandidates im).
Proof.
  intros Hi Hrow. unfold getCandidates. rewrite range_columns.
  assert (H : forall k, (i < k)%nat ->
                        In p (fold_left (scan_row im) (columns k) [])).
  { induction k as [|k IH]; intros Hk; [lia|].
    rewrite columns_succ, fold_left_app. cbn [fold_left].
    destruct (Nat.eq_dec i k) as [-> | Hne]; [apply Hrow|].
    apply scan_row_keeps, IH. lia. }
  apply H. lia.
Qed.

(** X23. A row that holds a cross-section black-white-black-white-black in
    the exact proportion 1 : 1 : 3 : 1 : 1 of any unit k, starting at the
    left border or after a white pixel and ending at the right border or
    before a white pixel, gives a pair of candidates in that row, the first
    of them inside the middle run. *)
Theorem getCandidates_finds_cross_section :
  forall (im : image) (i : nat) (row pre post : list bool) (k : nat),
    nth_error (pixels im) i = Some row ->
    Z.of_nat i < rows im ->
    cols im = Z.of_nat (length row) ->
    row = pre ++ cross_section k ++ post ->
    (1 <= k)%nat ->
    pre = [] \/ (exists pre', pre = pre' ++ [true]) ->
    post = [] \/ (exists post', post = true :: post') ->
    let a := Z.of_nat (length pre) in
    let c := a + 5 * Z.of_nat k - (3 * Z.of_nat k) / 2 in
    In (Z.of_nat i, c) (getCandidates im) /\
    In (Z.of_nat i, c + 1) (getCandidates im) /\
    a + 2 * Z.of_nat k <= c < a + 5 * Z.of_nat k.
Proof.
  intros im i row pre post k Hrow Hi Hcols Hsplit Hk Hpre Hpost a c.
  destruct (cross_section_counters im i row pre post k Hrow Hsplit Hk Hpre)
    as [Hs Hcheck].
  set (n := (length pre + 7 * k)%nat) in *.
  assert (Hlen : length row = (n + length post)%nat).
  { rewrite Hsplit, !length_app. unfold cross_section.
    rewrite !length_app, !repeat_length. lia. }
  assert (Hcol : center_col (Z.of_nat n)
                            (counters_of (row_history im (Z.of_nat i) n)) = c).
  { rewrite Hs. unfold center_col. cbn [counter3 counter4 counter5]. subst c a n.
    rewrite !Nat2Z.inj_add, !Nat2Z.inj_mul.
    change (Z.of_nat 3) with 3. change (Z.of_nat 7) with 7. lia. }
  assert (Hemit : emitted (Z.of_nat i) (Z.of_nat n)
                          (counters_of (row_history im (Z.of_nat i) n))
                  = [(Z.of_nat i, c); (Z.of_nat i, c + 1)]).
  { unfold emitted. now rewrite Hcheck, Hcol. }
  assert (Hboth : forall candidates,
             incl [(Z.of_nat i, c); (Z.of_nat i, c + 1)]
                  (scan_row im candidates (Z.of_nat i))).
  { intros candidates p Hp. unfold scan_row, scan_columns.
    rewrite range_columns.
    fold (scan_prefix im (Z.of_nat i) candidates (Z.to_nat (cols im))).
    destruct Hpost as [-> | (post' & ->)].
    - (* the cross-section ends at the right border *)
      simpl in Hlen. rewrite Nat.add_0_r in Hlen.
      replace (Z.to_nat (cols im)) with n by lia.
      replace (cols im - 1 + 1) with (Z.of_nat n) by lia.
      rewrite scan_prefix_counters, Hemit. apply in_or_app. now right.
    - (* a white pixel follows the cross-section *)
      apply in_or_app. left.
      apply (scan_prefix_keeps im (Z.of_nat i) candidates p (S n));
        [simpl in Hlen; lia|].
      rewrite scan_prefix_succ. unfold scan_pixel. cbn [snd].
      rewrite scan_prefix_counters. apply in_or_app. right.
      assert (Hwhite : getitem im (Z.of_nat i) (Z.of_nat n) = true).
      { unfold getitem. rewrite !Nat2Z.id, (nth_error_nth _ _ _ Hrow).
        rewrite Hsplit, app_assoc, app_nth2;
          rewrite length_app; unfold cross_section;
          rewrite !length_app, !repeat_length; [|lia].
        replace (n - _)%nat with O by lia. reflexivity. }
      unfold scan_emits. rewrite Hwhite, Hs. cbn [prev]. rewrite <- Hs.
      now rewrite Hemit. }
  split; [|split].
  - apply (getCandidates_of_row im i); [exact Hi|].
    intros candidates. apply Hboth. now left.
  - apply (getCandidates_of_row im i); [exact Hi|].
    intros candidates. apply Hboth. right. now left.
  - subst c. pose proof (half_bounds (3 * Z.of_nat k)).
    pose proof (half_positive (3 * Z.of_nat k)). lia.
Qed.

Lemma getCandidates_finds_cross_section_witness :
  let im :=
    image_of [[true; false; true; false; false; false; true; false]] in
  let a := Z.of_nat (length [true]) in
  let c := a + 5 * Z.of_nat 1 - (3 * Z.of_nat 1) / 2 in
  In (Z.of_nat 0, c) (getCandidates im) /\
  In (Z.of_nat 0, c + 1) (getCandidates im) /\
  a + 2 * Z.of_nat 1 <= c < a + 5 * Z.of_nat 1.
Proof.
  exact (getCandidates_finds_cross_section
           (image_of [[true; false; true; false; false; false; true; false]])
           0 [true; false; true; false; false; false; true; false]
           [true] [] 1
           eq_refl eq_refl eq_refl eq_refl (le_n 1)
           (or_intror (ex_intro _ [] eq_refl)) (or_introl eq_refl)).
Defined.
